(** * Change tracking over ProseMirror documents

    A shallow embedding of [index.js]: the tracked-change record, the
    re-application helper [applyAndSlice], the diff minimiser
    [minimizeChange], the change mapper [mapChanges] and the recorder
    [ChangeTracking.record] / [ChangeTracking.recordRange].

    The document library (prosemirror-model, prosemirror-transform) is not
    part of the program.  What the program calls of it is gathered in the
    class [DocModel]; the functions of [index.js] are written once, over
    any instance of it.  [Flat] is one instance: documents whose top node
    holds a run of characters. *)

From Stdlib Require Import String Ascii ZArith List Bool Sorted Lia.
Import ListNotations.
Local Open Scope Z_scope.

Set Implicit Arguments.

(** ** Exceptions

    A JavaScript call either returns or throws.  [Throw] stands for every
    exception the document library raises (RangeError, ReplaceError,
    TransformError, TypeError); the program catches none of them. *)

Inductive res (A : Type) : Type :=
| Ret (a : A)
| Throw.

Arguments Ret {A} a.
Arguments Throw {A}.

Definition bind {A B : Type} (m : res A) (k : A -> res B) : res B :=
  match m with
  | Ret a => k a
  | Throw => Throw
  end.

Notation "x <- m ;; k" := (bind m (fun x => k))
  (at level 61, m at next level, right associativity).
Notation "' pat <- m ;; k" := (bind m (fun x => match x with pat => k end))
  (at level 61, pat pattern, m at next level, right associativity).

(** ** Position maps

    [mapping.map(pos, assoc)] is all the program asks of a mapping: a step
    map, a [Mapping] and a [Transform] all answer it. *)

Definition PosMap : Type := Z -> Z -> Z.

(** A step map, as prosemirror-transform's [StepMap]: [ranges] lists the
    replaced ranges as (start, oldSize, newSize), which the library keeps
    flattened in one array, three entries a range. *)
Module StepMap.

Definition t : Type := list (Z * Z * Z).

(** [StepMap.map(pos, assoc)], the library's loop over the ranges;
    [diff] is the accumulated size change of the ranges already passed. *)
Fixpoint map_from (ranges : t) (diff pos assoc : Z) : Z :=
  match ranges with
  | [] => pos + diff
  | (start, oldSize, newSize) :: rest =>
      if start >? pos then pos + diff
      else
        let end_ := start + oldSize in
        if pos <=? end_ then
          let side :=
            if oldSize =? 0 then assoc
            else if pos =? start then -1
            else if pos =? end_ then 1
            else assoc in
          start + diff + (if side <? 0 then 0 else newSize)
        else map_from rest (diff + (newSize - oldSize)) pos assoc
  end.

Definition map (m : t) : PosMap := fun pos assoc => map_from m 0 pos assoc.

End StepMap.

(** [Mapping.map]: a position goes through the step maps in order. *)
Definition Mapping_map (maps : list StepMap.t) : PosMap :=
  fun pos assoc => fold_left (fun p m => StepMap.map m p assoc) maps pos.

(** ** The document library, as the program uses it *)

Class DocModel : Type := {
  Doc : Type;
  Slice : Type;
  Fragment : Type;
  ResolvedPos : Type;
  Slice_eq_dec : forall s1 s2 : Slice, {s1 = s2} + {s1 <> s2};
  (** [slice.size] *)
  Slice_size : Slice -> Z;
  (** [Slice.empty] *)
  Slice_empty : Slice;
  Slice_empty_size : Slice_size Slice_empty = 0;
  (** [doc.slice(from, to)] *)
  Doc_slice : Doc -> Z -> Z -> res Slice;
  (** [Node.slice] starts with [if (from == to) return Slice.empty]. *)
  Doc_slice_same : forall d p, Doc_slice d p p = Ret Slice_empty;
  (** One [Transform.replace(from, to, slice)] on a document: [None] when
      the library finds nothing to replace and adds no step, else the
      document after the step and the step's map. *)
  replaceStep : Doc -> Z -> Z -> Slice -> res (option (Doc * StepMap.t));
  (** [doc.resolve(pos)] *)
  Doc_resolve : Doc -> Z -> res ResolvedPos;
  (** [$pos.depth], [$pos.start(d)], [$pos.end(d)] and the content of
      [$pos.node(d)] *)
  depth : ResolvedPos -> nat;
  start : ResolvedPos -> nat -> res Z;
  end_ : ResolvedPos -> nat -> res Z;
  node_content : ResolvedPos -> nat -> res Fragment;
  (** [a.findDiffStart(b, pos)]: [None] is the library's [null]. *)
  findDiffStart : Fragment -> Fragment -> Z -> option Z;
  (** [a.findDiffEnd(b, posA, posB)]: the pair is the library's [{a, b}]. *)
  findDiffEnd : Fragment -> Fragment -> Z -> Z -> option (Z * Z)
}.

(** Authors are strings (the plugin tracks as ["x"]). *)
Definition Author : Type := string.
Bind Scope string_scope with Author.

(** ** [class TrackedChange] *)
Module TrackedChange.
Section WithModel.
Context {DM : DocModel}.

Record t : Type := new {
  from : Z;
  to : Z;
  deleted : Slice;
  author : Author
}.

(** [map(mapping, inclusive)]; [None] is [null]. *)
Definition map (this : t) (mapping : PosMap) (inclusive : bool) : option t :=
  let from' := mapping (from this) (if inclusive then -1 else 1) in
  let to' := mapping (to this) (if inclusive then 1 else -1) in
  if (from' >? to') || ((from' =? to') && (Slice_size (deleted this) =? 0))
  then None
  else Some (new from' to' (deleted this) (author this)).

Definition eq_dec (c1 c2 : t) : {c1 = c2} + {c1 <> c2}.
Proof.
  decide equality.
  - apply string_dec.
  - apply Slice_eq_dec.
  - apply Z.eq_dec.
  - apply Z.eq_dec.
Defined.

Definition eqb (c1 c2 : t) : bool := if eq_dec c1 c2 then true else false.

End WithModel.
End TrackedChange.

Abbreviation TC := TrackedChange.t.

Section Program.
Context {DM : DocModel}.

(** ** [Transform]

  The library keeps [docs] (the document before each step) and
  [mapping.maps] (the map of each step) as two arrays of one length;
  [steps] holds them side by side.  [doc] is the current document. *)
Record Transform : Type := mkTransform {
  doc : Doc;
  steps : list (Doc * StepMap.t)
}.

Definition maps (tr : Transform) : list StepMap.t := List.map snd (steps tr).

Definition Transform_new (d : Doc) : Transform := mkTransform d [].

Definition Transform_replace (tr : Transform) (from to : Z) (slice : Slice)
  : res Transform :=
  r <- replaceStep (doc tr) from to slice ;;
  match r with
  | None => Ret tr
  | Some (d', m) => Ret (mkTransform d' (steps tr ++ [(doc tr, m)]))
  end.

(** [tr.map(pos)] and [tr.mapping.map(pos)]: [assoc] defaults to 1. *)
Definition Transform_map (tr : Transform) (pos : Z) : Z :=
  Mapping_map (maps tr) pos 1.

(** ** [applyAndSlice] *)

(** The loop [for (i = changes.length - 1; i >= 0; i--)]: the changes are
    replaced back last to first. *)
Fixpoint applyAll (tr : Transform) (changes : list TC) : res Transform :=
  match changes with
  | [] => Ret tr
  | change :: rest =>
      tr' <- applyAll tr rest ;;
      Transform_replace tr' (TrackedChange.from change)
        (TrackedChange.to change) (TrackedChange.deleted change)
  end.

Definition applyAndSlice (d : Doc) (changes : list TC) (from to : Z)
  : res Slice :=
  tr <- applyAll (Transform_new d) changes ;;
  Doc_slice (doc tr) from (Transform_map tr to).

(** ** [minimizeChange] *)

(** [while (change.to > $from.end(sameDepth) ||
           changeEnd > $changedFrom.end(sameDepth)) --sameDepth].
    At depth 0 the node is the whole document; a change that does not fit
    in it lies outside the document, and the loop has nowhere to go. *)
Fixpoint sameDepth_loop (change_to changeEnd : Z)
    (rfrom rchanged : ResolvedPos) (sameDepth : nat) : res nat :=
  e1 <- end_ rfrom sameDepth ;;
  out <- (if change_to >? e1 then Ret true
          else e2 <- end_ rchanged sameDepth ;; Ret (changeEnd >? e2)) ;;
  if (out : bool) then
    match sameDepth with
    | O => Throw
    | S d => sameDepth_loop change_to changeEnd rfrom rchanged d
    end
  else Ret sameDepth.

(** What [minimizeChange] has in hand when it reaches [if (side == -1)]. *)
Record MinCtx : Type := mkMinCtx {
  mc_tr : Transform;
  mc_rfrom : ResolvedPos;
  mc_rchanged : ResolvedPos;
  mc_sameDepth : nat;
  mc_node : Fragment;
  mc_changedNode : Fragment
}.

Definition minimize_ctx (change : TC) (d : Doc) : res MinCtx :=
  tr <- Transform_replace (Transform_new d) (TrackedChange.from change)
          (TrackedChange.to change) (TrackedChange.deleted change) ;;
  let changedDoc := doc tr in
  rfrom <- Doc_resolve d (TrackedChange.from change) ;;
  rchanged <- Doc_resolve changedDoc (TrackedChange.from change) ;;
  let changeEnd :=
    TrackedChange.from change + Slice_size (TrackedChange.deleted change) in
  sameDepth <- sameDepth_loop (TrackedChange.to change) changeEnd
                 rfrom rchanged (depth rfrom) ;;
  node <- node_content rfrom sameDepth ;;
  changedNode <- node_content rchanged sameDepth ;;
  Ret (mkMinCtx tr rfrom rchanged sameDepth node changedNode).

(** [node.content.findDiffStart(changedNode.content, $from.start(sameDepth))] *)
Definition diffStart_of (cx : MinCtx) : res (option Z) :=
  s <- start (mc_rfrom cx) (mc_sameDepth cx) ;;
  Ret (findDiffStart (mc_node cx) (mc_changedNode cx) s).

(** [node.content.findDiffEnd(changedNode.content, $from.end(sameDepth),
    $changedFrom.end(sameDepth))] *)
Definition diffEnd_of (cx : MinCtx) : res (option (Z * Z)) :=
  ea <- end_ (mc_rfrom cx) (mc_sameDepth cx) ;;
  eb <- end_ (mc_rchanged cx) (mc_sameDepth cx) ;;
  Ret (findDiffEnd (mc_node cx) (mc_changedNode cx) ea eb).

(** The branch [side == -1].  [!diffStart] holds of [null] and of 0. *)
Definition minimize_start (change : TC) (cx : MinCtx) : res (option TC) :=
  ds <- diffStart_of cx ;;
  match ds with
  | None => Ret None
  | Some diffStart =>
      if diffStart =? 0 then Ret None
      else if (diffStart =? TrackedChange.from change)
              || (diffStart >=? TrackedChange.to change)
      then Ret (Some change)
      else
        s <- Doc_slice (doc (mc_tr cx)) diffStart
               (Transform_map (mc_tr cx) (TrackedChange.to change)) ;;
        Ret (Some (TrackedChange.new diffStart (TrackedChange.to change) s
                     (TrackedChange.author change)))
  end.

(** The other branch.  [!diffEnd] holds of [null] only. *)
Definition minimize_end (change : TC) (cx : MinCtx) : res (option TC) :=
  de <- diffEnd_of cx ;;
  match de with
  | None => Ret None
  | Some (a, b) =>
      if (a =? TrackedChange.to change)
         || (a <=? TrackedChange.from change)
         || (b <=? TrackedChange.from change)
      then Ret (Some change)
      else
        s <- Doc_slice (doc (mc_tr cx)) (TrackedChange.from change) b ;;
        Ret (Some (TrackedChange.new (TrackedChange.from change) a s
                     (TrackedChange.author change)))
  end.

Definition minimizeChange (change : TC) (d : Doc) (side : Z)
  : res (option TC) :=
  cx <- minimize_ctx change d ;;
  if side =? -1 then minimize_start change cx else minimize_end change cx.

(** ** [mapChanges] *)

(** [updated] holds a change and, next to it, its side; the array
    [c1, s1, c2, s2, ...] is kept as a list of pairs.
    [updated.indexOf(change)] looks for the object itself; here the
    changes are compared field by field.  The objects in [updated] are the
    merged changes [recordRange] has just stored in [this.changes]. *)
Definition Updated : Type := list (TC * Z).

Fixpoint updated_side (updated : Updated) (change : TC) : option Z :=
  match updated with
  | [] => None
  | (c, side) :: rest =>
      if TrackedChange.eqb c change then Some side
      else updated_side rest change
  end.

(** [author == change.author], where [author] may be [undefined]. *)
Definition author_is (author : option Author) (a : Author) : bool :=
  match author with
  | Some x => String.eqb x a
  | None => false
  end.

(** One turn of the loop of [mapChanges]: what is pushed on [result]. *)
Definition mapChange (map : PosMap) (author : option Author)
    (updated : option Updated) (docAfter : option Doc) (change : TC)
  : res (option TC) :=
  match TrackedChange.map change map
          (author_is author (TrackedChange.author change)) with
  | None => Ret None
  | Some mapped =>
      match updated with
      | None => Ret (Some mapped)
      | Some upd =>
          match updated_side upd change with
          | None => Ret (Some mapped)
          | Some side =>
              match docAfter with
              | None => Throw
              | Some d => minimizeChange mapped d side
              end
          end
      end
  end.

Fixpoint mapChanges (changes : list TC) (map : PosMap)
    (author : option Author) (updated : option Updated)
    (docAfter : option Doc) : res (list TC) :=
  match changes with
  | [] => Ret []
  | change :: rest =>
      m <- mapChange map author updated docAfter change ;;
      result <- mapChanges rest map author updated docAfter ;;
      Ret (match m with Some c => c :: result | None => result end)
  end.

End Program.

(** ** [class ChangeTracking]

    [this.changes] is passed in and handed back. *)
Module ChangeTracking.
Section WithModel.
Context {DM : DocModel}.

(** The inner loop of [recordRange], from [j = i + 1]: the changes pushed
    on [changes], and what is left of [this.changes] behind index [i]. *)
Fixpoint absorb (to : Z) (author : Author) (tail : list TC)
  : list TC * list TC :=
  match tail with
  | [] => ([], [])
  | next :: rest =>
      if negb (String.eqb (TrackedChange.author next) author) then
        let (abs, kept) := absorb to author rest in (abs, next :: kept)
      else if TrackedChange.from next >? to then ([], tail)
      else
        let (abs, kept) := absorb to author rest in (next :: abs, kept)
  end.

(** The body of the outer loop once [change] matches: [tail] is
    [this.changes] behind it.  Returns the new tail from index [i] on. *)
Definition merge (d : Doc) (from to : Z) (updatedChanges : Updated)
    (change : TC) (tail : list TC) (author : Author)
  : res (list TC * Updated) :=
  let (abs, kept) := absorb to author tail in
  let changes := change :: abs in
  let newContent :=
    (from <? TrackedChange.from change) || (to >? TrackedChange.to change)
    || negb (match abs with [] => true | _ => false end) in
  let newFrom := Z.min (TrackedChange.from change) from in
  let newTo := Z.max (TrackedChange.to (last changes change)) to in
  slice <- (if newContent then applyAndSlice d changes newFrom newTo
            else Ret (TrackedChange.deleted change)) ;;
  let c := TrackedChange.new newFrom newTo slice
             (TrackedChange.author change) in
  Ret (c :: kept,
       updatedChanges
         ++ [(c, if from <=? TrackedChange.from change then -1 else 1)]).

(** [recordRange(doc, from, to, author, updatedChanges)], as a scan of
    [this.changes] from index [i]. *)
Fixpoint recordRange_scan (d : Doc) (from to : Z) (author : Author)
    (updatedChanges : Updated) (changes : list TC)
  : res (list TC * Updated) :=
  match changes with
  | [] =>
      s <- Doc_slice d from to ;;
      Ret ([TrackedChange.new from to s author], updatedChanges)
  | change :: rest =>
      if negb (String.eqb (TrackedChange.author change) author)
         || (TrackedChange.to change <? from)
      then
        '(cs, u) <- recordRange_scan d from to author updatedChanges rest ;;
        Ret (change :: cs, u)
      else if TrackedChange.from change >? to then
        s <- Doc_slice d from to ;;
        Ret (TrackedChange.new from to s author :: changes, updatedChanges)
      else merge d from to updatedChanges change rest author
  end.

Definition recordRange (d : Doc) (from to : Z) (author : Author)
    (st : list TC * Updated) : res (list TC * Updated) :=
  recordRange_scan d from to author (snd st) (fst st).

(** [for (r = 0; r < map.ranges.length; r += 3) this.recordRange(...)] *)
Fixpoint record_ranges (d : Doc) (ranges : StepMap.t) (author : Author)
    (st : list TC * Updated) : res (list TC * Updated) :=
  match ranges with
  | [] => Ret st
  | (start_, oldSize, _) :: rest =>
      st' <- recordRange d start_ (start_ + oldSize) author st ;;
      record_ranges d rest author st'
  end.

(** The loop of [record] over the steps; [final] is [transform.doc], the
    document after the last step. *)
Fixpoint record_steps (sts : list (Doc * StepMap.t)) (final : Doc)
    (author : Author) (changes : list TC) : res (list TC) :=
  match sts with
  | [] => Ret changes
  | (d, map) :: rest =>
      '(cs, updated) <- record_ranges d map author (changes, []) ;;
      let docAfter := match rest with (d', _) :: _ => d' | [] => final end in
      cs' <- mapChanges cs (StepMap.map map) (Some author) (Some updated)
               (Some docAfter) ;;
      record_steps rest final author cs'
  end.

Definition record (changes : list TC) (transform : Transform)
    (author : Author) : res (list TC) :=
  record_steps (steps transform) (doc transform) author changes.

(** [apply] of the plugin: an empty author or a reverting transaction is
    only mapped through, anything else is recorded. *)
Definition apply (changes : list TC) (author : Author)
    (transform : Transform) (reverting : bool) : res (list TC) :=
  if String.eqb author EmptyString || reverting
  then mapChanges changes (Mapping_map (maps transform)) None None None
  else record changes transform author.

(** [forgetChange(change)]: what is left of [this.changes], and whether
    the change was found.  [indexOf] looks for the object itself; as in
    [updated_side], the changes are compared field by field, and the
    first that agrees is spliced out. *)
Fixpoint forgetChange (changes : list TC) (change : TC) : list TC * bool :=
  match changes with
  | [] => ([], false)
  | c :: rest =>
      if TrackedChange.eqb c change then (rest, true)
      else
        let (rest', found) := forgetChange rest change in (c :: rest', found)
  end.


End WithModel.
End ChangeTracking.

(** ** A document model: text directly under the top node

    A document whose top node holds characters and nothing else (a schema
    with [doc: {content: "text*"}]).  Every position from 0 to the length
    of the text is valid and resolves at depth 0; every slice is closed. *)
Module Flat.

Definition Text : Type := list ascii.

Definition text (s : string) : Text := list_ascii_of_string s.

Definition size (d : Text) : Z := Z.of_nat (length d).

Definition valid (d : Text) (pos : Z) : bool := (0 <=? pos) && (pos <=? size d).

Definition Text_eq_dec (a b : Text) : {a = b} + {a <> b} :=
  list_eq_dec ascii_dec a b.

(** [Fragment.cut(from, to)] on text *)
Definition cut (d : Text) (from to : Z) : Text :=
  if to >? from
  then firstn (Z.to_nat (to - from)) (skipn (Z.to_nat from) d)
  else [].

Definition slice (d : Text) (from to : Z) : res Text :=
  if from =? to then Ret []
  else if valid d from && valid d to then Ret (cut d from to)
  else Throw.

(** The replace of a closed slice between two valid positions always
    fits: the step is [ReplaceStep(from, to, slice)], its map
    [[from, to - from, slice.size]]. *)
Definition replace (d : Text) (from to : Z) (s : Text)
  : res (option (Text * StepMap.t)) :=
  if (from =? to) && (size s =? 0) then Ret None
  else if valid d from && valid d to
  then Ret (Some (firstn (Z.to_nat from) d ++ s ++ skipn (Z.to_nat to) d,
                  [(from, to - from, size s)]))
  else Throw.

Definition resolve (d : Text) (pos : Z) : res (Text * Z) :=
  if valid d pos then Ret (d, pos) else Throw.

Definition at_top {A : Type} (k : nat) (a : A) : res A :=
  match k with O => Ret a | S _ => Throw end.

(** Length of the longest common prefix *)
Fixpoint common_prefix (a b : Text) : nat :=
  match a, b with
  | x :: a', y :: b' =>
      if ascii_dec x y then S (common_prefix a' b') else O
  | _, _ => O
  end.

Definition diffStart (a b : Text) (pos : Z) : option Z :=
  if Text_eq_dec a b then None
  else Some (pos + Z.of_nat (common_prefix a b)).

Definition diffEnd (a b : Text) (posA posB : Z) : option (Z * Z) :=
  if Text_eq_dec a b then None
  else
    let same := Z.of_nat (common_prefix (rev a) (rev b)) in
    Some (posA - same, posB - same).

Lemma slice_same (d : Text) (p : Z) : slice d p p = Ret [].
Proof. unfold slice. now rewrite Z.eqb_refl. Qed.

Definition model : DocModel := {|
  Doc := Text;
  Slice := Text;
  Fragment := Text;
  ResolvedPos := Text * Z;
  Slice_eq_dec := Text_eq_dec;
  Slice_size := size;
  Slice_empty := [];
  Slice_empty_size := eq_refl;
  Doc_slice := slice;
  Doc_slice_same := slice_same;
  replaceStep := replace;
  Doc_resolve := resolve;
  depth := fun _ => O;
  start := fun _ k => at_top k 0;
  end_ := fun rp k => at_top k (size (fst rp));
  node_content := fun rp k => at_top k (fst rp);
  findDiffStart := diffStart;
  findDiffEnd := diffEnd
|}.

End Flat.

(** * Vocabulary of the properties *)

Section Vocabulary.
Context {DM : DocModel}.

(** What one change leaves in the result of [mapChanges] when no list of
    updated changes is passed. *)
Definition mapped_list (mapping : PosMap) (author : option Author) (c : TC)
  : list TC :=
  match TrackedChange.map c mapping
          (author_is author (TrackedChange.author c)) with
  | Some c' => [c']
  | None => []
  end.

(** The change is by this author. *)
Definition by_author (a : Author) (c : TC) : bool :=
  String.eqb (TrackedChange.author c) a.

Definition other_author (a : Author) (c : TC) : bool := negb (by_author a c).

(** The change is by this author and its range meets or touches
    [[from, to]]. *)
Definition touches (from to : Z) (a : Author) (c : TC) : bool :=
  by_author a c && (TrackedChange.to c >=? from)
  && (TrackedChange.from c <=? to).

(** The range part of [touches]. *)
Definition in_reach (from to : Z) (c : TC) : bool :=
  (TrackedChange.to c >=? from) && (TrackedChange.from c <=? to).

(** The least of [from] and the starts of the changes, and the greatest
    of [to] and their ends. *)
Definition starts_min (from : Z) (l : list TC) : Z :=
  fold_right (fun c acc => Z.min (TrackedChange.from c) acc) from l.

Definition ends_max (to : Z) (l : list TC) : Z :=
  fold_right (fun c acc => Z.max (TrackedChange.to c) acc) to l.

(** The merge as the specification words it: the one change that stands
    for the run [c0 :: rest] of touched changes.  Its deleted content is
    computed anew when the span reaches beyond [c0] or the run has more
    than one change, and is that of [c0] otherwise. *)
Definition merged_slice (d : Doc) (from to : Z) (c0 : TC) (rest : list TC)
  : res Slice :=
  if (from <? TrackedChange.from c0) || (to >? TrackedChange.to c0)
     || (match rest with [] => false | _ :: _ => true end)
  then applyAndSlice d (c0 :: rest) (starts_min from (c0 :: rest))
         (ends_max to (c0 :: rest))
  else Ret (TrackedChange.deleted c0).

Definition merged_change (from to : Z) (a : Author) (c0 : TC)
    (rest : list TC) (slice : Slice) : TC :=
  TrackedChange.new (starts_min from (c0 :: rest))
    (ends_max to (c0 :: rest)) slice a.

(** The changes of one author, in the order of the change set. *)
Definition own (a : Author) (cs : list TC) : list TC :=
  filter (by_author a) cs.

Definition well_formed (c : TC) : Prop :=
  TrackedChange.from c <= TrackedChange.to c.

Definition starts_le (c1 c2 : TC) : Prop :=
  TrackedChange.from c1 <= TrackedChange.from c2.

Definition ends_le (c1 c2 : TC) : Prop :=
  TrackedChange.to c1 <= TrackedChange.to c2.

(** The first change ends strictly before the second starts. *)
Definition apart (c1 c2 : TC) : Prop :=
  TrackedChange.to c1 < TrackedChange.from c2.

(** An author's changes lie in the set in the order of their ranges. *)
Definition in_order (a : Author) (cs : list TC) : Prop :=
  Forall well_formed (own a cs)
  /\ StronglySorted starts_le (own a cs)
  /\ StronglySorted ends_le (own a cs).

(** An author's changes neither overlap nor touch. *)
Definition kept_apart (a : Author) (cs : list TC) : Prop :=
  Forall well_formed (own a cs) /\ StronglySorted apart (own a cs).

(** The non-overlap invariant, pair by pair. *)
Definition no_overlap (cs : list TC) : Prop :=
  forall i j c1 c2,
    i <> j -> nth_error cs i = Some c1 -> nth_error cs j = Some c2 ->
    TrackedChange.author c1 = TrackedChange.author c2 ->
    TrackedChange.from c1 <= TrackedChange.from c2 ->
    TrackedChange.to c1 < TrackedChange.from c2.

(** The ordering invariant: each change starts no later than the next. *)
Definition sorted_by_from (cs : list TC) : Prop :=
  forall i c1 c2,
    nth_error cs i = Some c1 -> nth_error cs (S i) = Some c2 ->
    TrackedChange.from c1 <= TrackedChange.from c2.

(** A position map that keeps the order of positions, for each bias. *)
Definition monotone (m : PosMap) : Prop :=
  forall assoc p q, p <= q -> m p assoc <= m q assoc.

(** A position map that keeps distinct positions distinct and in order,
    whatever the biases. *)
Definition increasing (m : PosMap) : Prop :=
  forall a b p q, p < q -> m p a < m q b.

(** The change sets that calls of [recordRange] (with [from <= to]) and
    of [mapChanges] without updated changes, through maps of the given
    kind, build from the empty set. *)
Inductive reachable (allowed : PosMap -> Prop) : list TC -> Prop :=
| reach_empty : reachable allowed []
| reach_recordRange cs u d from to a cs' u' :
    reachable allowed cs ->
    from <= to ->
    ChangeTracking.recordRange d from to a (cs, u) = Ret (cs', u') ->
    reachable allowed cs'
| reach_mapChanges cs m a cs' :
    reachable allowed cs ->
    allowed m ->
    mapChanges cs m a None None = Ret cs' ->
    reachable allowed cs'.

(** The change marks something: its range is not empty, or it has
    deleted content. *)
Definition marks_something (c : TC) : Prop :=
  TrackedChange.from c < TrackedChange.to c
  \/ (TrackedChange.from c = TrackedChange.to c
      /\ Slice_size (TrackedChange.deleted c) <> 0).

(** The document library finds the first difference between a document
    and its reconstruction no earlier than the start of the change that
    was put back, and the last difference no later than its end: outside
    the change the two documents are the same. *)
Definition diff_within : Prop :=
  forall (change : TC) (d : Doc) (cx : MinCtx),
    well_formed change ->
    minimize_ctx change d = Ret cx ->
    (forall p, diffStart_of cx = Ret (Some p) ->
               TrackedChange.from change <= p)
    /\ (forall a b, diffEnd_of cx = Ret (Some (a, b)) ->
                    a <= TrackedChange.to change).

(** A step map with one replaced range, as a [ReplaceStep] has. *)
Definition single_range (m : StepMap.t) : Prop :=
  exists s o n, m = [(s, o, n)] /\ 0 <= o /\ 0 <= n.

(** The change lies before the range [[s, s + o]], behind it, or covers
    it. *)
Definition clear_of (s o : Z) (c : TC) : Prop :=
  TrackedChange.to c < s
  \/ s + o < TrackedChange.from c
  \/ (TrackedChange.from c <= s /\ s + o <= TrackedChange.to c).

(** What holds of the change set of a one-author tracker. *)
Definition tracker_inv (a : Author) (cs : list TC) : Prop :=
  Forall (fun c => TrackedChange.author c = a) cs
  /\ Forall well_formed cs /\ StronglySorted apart cs.

(** The change sets of a tracker that records for one author: from the
    empty set, one [record] after the other, each step of each transform
    replacing one range. *)
Inductive tracked (a : Author) : list TC -> Prop :=
| tracked_empty : tracked a []
| tracked_record cs tr cs' :
    tracked a cs ->
    Forall (fun st => single_range (snd st)) (steps tr) ->
    ChangeTracking.record cs tr a = Ret cs' ->
    tracked a cs'.

End Vocabulary.

(** ** Sample inputs in the [Flat] model

    The texts start with ["<"], which stands where a paragraph would open,
    so that positions read as in a one-paragraph document. *)
Module Samples.

Definition change (from to : Z) (deleted author : string)
  : @TrackedChange.t Flat.model :=
  @TrackedChange.new Flat.model from to (Flat.text deleted) author.

(** The context [minimizeChange] works in; the default is never used on
    the samples below. *)
Definition ctx (c : @TrackedChange.t Flat.model) (d : Flat.Text)
  : @MinCtx Flat.model :=
  match @minimize_ctx Flat.model c d with
  | Ret cx => cx
  | Throw => @mkMinCtx Flat.model (@Transform_new Flat.model d)
               (d, 0) (d, 0) O d d
  end.

(** The replace of one span of a document by a text, as a one-step
    transform: the document before, the span, the text put there. *)
Definition edit (d : Flat.Text) (from to : Z) (s : string)
  : @Transform Flat.model :=
  @mkTransform Flat.model
    (firstn (Z.to_nat from) d ++ Flat.text s ++ skipn (Z.to_nat to) d)
    [(d, [(from, to - from, Flat.size (Flat.text s))])].

Definition foobar : Flat.Text := Flat.text "<foobar>".

(** Two changes of one author, recorded over [foobar] at [[2, 3)] and
    [[5, 6)]. *)
Definition two_apart : list (@TrackedChange.t Flat.model) :=
  [change 2 3 "o" "x"; change 5 6 "a" "x"].

(** The same two changes mapped through the deletion of [[3, 5)]. *)
Definition two_touching : list (@TrackedChange.t Flat.model) :=
  [change 2 3 "o" "x"; change 3 4 "a" "x"].

(** A change of ["y"] recorded at [[4, 5)], then one of ["x"] at
    [[1, 2)]. *)
Definition two_authors : list (@TrackedChange.t Flat.model) :=
  [change 4 5 "b" "y"; change 1 2 "f" "x"].

(** Changes of two authors, ["x"] and ["y"], over [foobar]. *)
Definition mixed : list (@TrackedChange.t Flat.model) :=
  [change 1 2 "" "y"; change 2 3 "" "x"; change 3 6 "" "y";
   change 4 5 "" "x"; change 7 7 "q" "x"].

(** [mixed] after ["x"] has recorded [[3, 4)]. *)
Definition mixed_merged : list (@TrackedChange.t Flat.model) :=
  [change 1 2 "" "y"; change 2 5 "o" "x"; change 3 6 "" "y";
   change 7 7 "q" "x"].


(** The edits of [test.js]: [ins(at, text)] and [del(from, to)]. *)
Definition ins (at_ : Z) (s : string) : Z * Z * string := (at_, at_, s).
Definition del (from to : Z) : Z * Z * string := (from, to, EmptyString).

(** A run of the tracker for author ["x"], from the empty change set: the
    edits are made one after the other, each recorded as it is made. *)
Definition play (d : Flat.Text) (edits : list (Z * Z * string))
  : res (Flat.Text * list (@TrackedChange.t Flat.model)) :=
  fold_left
    (fun acc e =>
       '(d, cs) <- acc ;;
       let '(from, to, s) := e in
       cs' <- @ChangeTracking.record Flat.model cs (edit d from to s) "x" ;;
       Ret (doc (edit d from to s), cs'))
    edits (Ret (d, [])).

(** What the tracker holds after the test [add_twice]. *)
Definition add_twice : list (@TrackedChange.t Flat.model) :=
  [change 1 3 "" "x"; change 6 8 "" "x"].

End Samples.

(** * Properties *)

Unset Implicit Arguments.

(** ** Mapping a change *)

Section MapFacts.
Context {DM : DocModel}.

Lemma bind_Ret {A B : Type} (a : A) (k : A -> res B) : bind (Ret a) k = k a.
Proof. reflexivity. Qed.

Lemma bind_inv {A B : Type} (m : res A) (k : A -> res B) (b : B) :
  bind m k = Ret b -> exists a, m = Ret a /\ k a = Ret b.
Proof. destruct m as [a|]; simpl; [eauto | discriminate]. Qed.

Lemma mapChanges_plain (changes : list TC) (mapping : PosMap)
    (author : option Author) :
  mapChanges changes mapping author None None
  = Ret (flat_map (mapped_list mapping author) changes).
Proof.
  induction changes as [|c cs IH]; simpl; [reflexivity|].
  rewrite IH. unfold mapChange, mapped_list.
  destruct (TrackedChange.map c mapping _); reflexivity.
Qed.

Lemma map_None_iff (c : TC) (mapping : PosMap) (inclusive : bool) :
  TrackedChange.map c mapping inclusive = None <->
  mapping (TrackedChange.from c) (if inclusive then -1 else 1)
  > mapping (TrackedChange.to c) (if inclusive then 1 else -1)
  \/ (mapping (TrackedChange.from c) (if inclusive then -1 else 1)
      = mapping (TrackedChange.to c) (if inclusive then 1 else -1)
      /\ Slice_size (TrackedChange.deleted c) = 0).
Proof.
  unfold TrackedChange.map.
  destruct (_ >? _) eqn:Hgt; simpl.
  - split; [intros _; left; lia | reflexivity].
  - destruct (_ =? _) eqn:Heq; simpl.
    + destruct (Slice_size (TrackedChange.deleted c) =? 0) eqn:Hsz.
      * split; [intros _; right; lia | reflexivity].
      * split; [discriminate | intros [H|[_ H]]; lia].
    + split; [discriminate | intros [H|[H _]]; lia].
Qed.

Lemma map_Some_eq (c c' : TC) (mapping : PosMap) (inclusive : bool) :
  TrackedChange.map c mapping inclusive = Some c' ->
  c' = TrackedChange.new
         (mapping (TrackedChange.from c) (if inclusive then -1 else 1))
         (mapping (TrackedChange.to c) (if inclusive then 1 else -1))
         (TrackedChange.deleted c) (TrackedChange.author c).
Proof.
  unfold TrackedChange.map.
  destruct (_ || _); [discriminate|]. intros H. now inversion H.
Qed.

End MapFacts.

(** C4. Mapping a change returns [null] exactly when the mapped end points
    have [from > to], or [from = to] with an empty deleted slice; a change
    that is kept has the mapped end points and the deleted slice and author
    it had.  In [mapChanges], a change that [map] drops is left out, and a
    change that [map] keeps and that is not among the updated ones is
    pushed as [map] returned it; without updated changes the result is, in
    order, exactly what [map] keeps. *)
Theorem TrackedChange_map_dropped_iff {DM : DocModel}
    (c : TC) (mapping : PosMap) (inclusive : bool) :
  let from' := mapping (TrackedChange.from c) (if inclusive then -1 else 1) in
  let to' := mapping (TrackedChange.to c) (if inclusive then 1 else -1) in
  (TrackedChange.map c mapping inclusive = None <->
   from' > to' \/ (from' = to' /\ Slice_size (TrackedChange.deleted c) = 0))
  /\ (forall c', TrackedChange.map c mapping inclusive = Some c' ->
        c' = TrackedChange.new from' to' (TrackedChange.deleted c)
               (TrackedChange.author c))
  /\ (forall author updated docAfter,
        match TrackedChange.map c mapping
                (author_is author (TrackedChange.author c)) with
        | None => mapChange mapping author updated docAfter c = Ret None
        | Some c' =>
            match updated with
            | None => True
            | Some upd => updated_side upd c = None
            end ->
            mapChange mapping author updated docAfter c = Ret (Some c')
        end)
  /\ (forall changes author,
        mapChanges changes mapping author None None
        = Ret (flat_map (mapped_list mapping author) changes)).
Proof.
  intros from' to'. split; [|split; [|split]].
  - apply map_None_iff.
  - intros c'. apply map_Some_eq.
  - intros author updated docAfter. unfold mapChange.
    destruct (TrackedChange.map c mapping _); [|reflexivity].
    destruct updated as [upd|]; [|reflexivity].
    intros ->. reflexivity.
  - intros changes author. apply mapChanges_plain.
Qed.

(** ** The start side of the minimiser *)

(** C10. When [findDiffStart] answers position 0, [minimizeChange] with
    side -1 returns [null], as it does when there is no difference. *)
Theorem minimize_start_zero_dropped {DM : DocModel}
    (change : TC) (d : Doc) (cx : MinCtx) :
  minimize_ctx change d = Ret cx ->
  diffStart_of cx = Ret (Some 0) ->
  minimizeChange change d (-1) = Ret None.
Proof.
  intros Hcx Hds. unfold minimizeChange. rewrite Hcx. simpl.
  unfold minimize_start. rewrite Hds. reflexivity.
Qed.




(** Text directly under the top node, ["xbc"] where ["abc"] was: the first
    difference is at 0, and the change is dropped though the texts differ. *)
Lemma minimize_start_zero_dropped_witness :
  @minimize_ctx Flat.model (Samples.change 0 1 "a" "x") (Flat.text "xbc")
  = Ret (Samples.ctx (Samples.change 0 1 "a" "x") (Flat.text "xbc"))
  /\ @diffStart_of Flat.model
       (Samples.ctx (Samples.change 0 1 "a" "x") (Flat.text "xbc"))
     = Ret (Some 0)
  /\ @mc_node Flat.model
       (Samples.ctx (Samples.change 0 1 "a" "x") (Flat.text "xbc"))
     <> @mc_changedNode Flat.model
          (Samples.ctx (Samples.change 0 1 "a" "x") (Flat.text "xbc"))
  /\ @minimizeChange Flat.model (Samples.change 0 1 "a" "x")
       (Flat.text "xbc") (-1)
     = Ret None.
Proof.
  split; [reflexivity|]. split; [reflexivity|].
  split; [vm_compute; discriminate|].
  apply (@minimize_start_zero_dropped Flat.model
           (Samples.change 0 1 "a" "x") (Flat.text "xbc")
           (Samples.ctx (Samples.change 0 1 "a" "x") (Flat.text "xbc")));
    reflexivity.
Defined.

(** ** Step maps with one range *)

(** Settles the integer tests of the goal that [lia] can decide. *)
Ltac decide_cmp :=
  repeat match goal with
  | |- context [?a >? ?b] => rewrite (Z.gtb_ltb a b)
  | |- context [?a >=? ?b] => rewrite (Z.geb_leb a b)
  end;
  repeat match goal with
  | |- context [?a <? ?b] =>
      first [ rewrite (proj2 (Z.ltb_lt a b)) by lia
            | rewrite (proj2 (Z.ltb_ge a b)) by lia ]
  | |- context [?a <=? ?b] =>
      first [ rewrite (proj2 (Z.leb_le a b)) by lia
            | rewrite (proj2 (Z.leb_gt a b)) by lia ]
  | |- context [?a =? ?b] =>
      first [ rewrite (proj2 (Z.eqb_eq a b)) by lia
            | rewrite (proj2 (Z.eqb_neq a b)) by lia ]
  end.

Lemma StepMap_map_single (s o n pos assoc : Z) :
  StepMap.map [(s, o, n)] pos assoc
  = if s >? pos then pos
    else if pos <=? s + o then
      s + (if (if o =? 0 then assoc
               else if pos =? s then -1
               else if pos =? s + o then 1 else assoc) <? 0
           then 0 else n)
    else pos + (n - o).
Proof.
  unfold StepMap.map. simpl.
  destruct (s >? pos); [lia|].
  destruct (pos <=? s + o); [|reflexivity].
  rewrite Z.add_0_r. reflexivity.
Qed.

(** ** Insert, then delete what was inserted *)

Section Cancel.
Context {DM : DocModel}.

Lemma author_is_same (a : Author) : author_is (Some a) a = true.
Proof. simpl. apply String.eqb_refl. Qed.

(** Recording an insertion of [n] positions at [p] into an empty set. *)
Lemma record_insert_fresh (d0 d1 : Doc) (p : Z) (n : nat) (a : Author) :
  ChangeTracking.record [] (mkTransform d1 [(d0, [(p, 0, Z.of_nat n)])]) a
  = Ret (match n with
         | O => []
         | S _ => [TrackedChange.new p (p + Z.of_nat n) Slice_empty a]
         end).
Proof.
  unfold ChangeTracking.record. cbn [steps doc ChangeTracking.record_steps
    ChangeTracking.record_ranges ChangeTracking.recordRange fst snd
    ChangeTracking.recordRange_scan].
  rewrite Z.add_0_r, Doc_slice_same. cbn [bind].
  cbn [mapChanges]. unfold mapChange. cbn [TrackedChange.author].
  rewrite author_is_same. unfold TrackedChange.map.
  cbn [TrackedChange.from TrackedChange.to TrackedChange.deleted
       TrackedChange.author].
  rewrite !StepMap_map_single, Slice_empty_size.
  destruct n as [|n].
  - change (Z.of_nat 0) with 0. decide_cmp. reflexivity.
  - decide_cmp. cbn [orb andb updated_side bind]. rewrite Z.add_0_r.
    reflexivity.
Qed.

(** Recording the deletion of the span an insertion annotation covers. *)
Lemma record_delete_inserted (d1 d2 : Doc) (p : Z) (n : nat) (a : Author) :
  ChangeTracking.record
    [TrackedChange.new p (p + Z.of_nat n) Slice_empty a]
    (mkTransform d2 [(d1, [(p, Z.of_nat n, 0)])]) a
  = Ret [].
Proof.
  unfold ChangeTracking.record. cbn [steps doc ChangeTracking.record_steps
    ChangeTracking.record_ranges ChangeTracking.recordRange fst snd
    ChangeTracking.recordRange_scan TrackedChange.author TrackedChange.to
    TrackedChange.from].
  rewrite String.eqb_refl. decide_cmp.
  cbn [negb orb]. unfold ChangeTracking.merge.
  cbn [ChangeTracking.absorb last TrackedChange.from TrackedChange.to
       TrackedChange.deleted TrackedChange.author].
  decide_cmp. cbn [negb orb bind app].
  rewrite Z.min_id, Z.max_id.
  cbn [mapChanges]. unfold mapChange. cbn [TrackedChange.author].
  rewrite author_is_same. unfold TrackedChange.map.
  cbn [TrackedChange.from TrackedChange.to TrackedChange.deleted].
  rewrite !StepMap_map_single, Slice_empty_size.
  destruct (Z.eq_dec (Z.of_nat n) 0) as [E|E].
  - rewrite E. decide_cmp. reflexivity.
  - decide_cmp. reflexivity.
Qed.

End Cancel.

(** C6. From the empty change set, recording the insertion of [n]
    positions at [p] and then, for the same author, the deletion of
    [[p, p + n)] leaves the change set empty, whatever the documents. *)
Theorem insert_then_delete_cancels {DM : DocModel}
    (d0 d1 d2 : Doc) (p : Z) (n : nat) (a : Author) :
  (cs <- ChangeTracking.record []
           (mkTransform d1 [(d0, [(p, 0, Z.of_nat n)])]) a ;;
   ChangeTracking.record cs
     (mkTransform d2 [(d1, [(p, Z.of_nat n, 0)])]) a)
  = Ret [].
Proof.
  rewrite record_insert_fresh. cbn [bind].
  destruct n as [|n].
  - apply (record_insert_fresh d1 d2 p 0 a).
  - apply record_delete_inserted.
Qed.

(** ** [recordRange] and the changes of other authors *)

Section Frame.
Context {DM : DocModel}.

Lemma absorb_frame (to : Z) (a : Author) (tail : list TC) :
  filter (other_author a) (snd (ChangeTracking.absorb to a tail))
  = filter (other_author a) tail
  /\ Forall (fun c => by_author a c = true)
       (fst (ChangeTracking.absorb to a tail))
  /\ ChangeTracking.absorb to a (filter (by_author a) tail)
     = (fst (ChangeTracking.absorb to a tail),
        filter (by_author a) (snd (ChangeTracking.absorb to a tail))).
Proof.
  induction tail as [|next rest IH]; simpl.
  - repeat split. constructor.
  - destruct IH as (IH1 & IH2 & IH3).
    unfold other_author, by_author in *.
    destruct (String.eqb (TrackedChange.author next) a) eqn:Ea; simpl.
    + rewrite Ea. simpl.
      destruct (TrackedChange.from next >? to) eqn:Egt; simpl.
      * rewrite Ea. simpl. repeat split. constructor.
      * destruct (ChangeTracking.absorb to a rest) as [abs kept] eqn:Eabs.
        simpl in *. rewrite IH3. repeat split; auto.
    + destruct (ChangeTracking.absorb to a rest) as [abs kept] eqn:Eabs.
      simpl in *. rewrite Ea. simpl. rewrite IH1. repeat split; auto.
Qed.

Lemma merge_inv (d : Doc) (from to : Z) (u : Updated) (change : TC)
    (tail : list TC) (a : Author) (cs' : list TC) (u' : Updated) :
  ChangeTracking.merge d from to u change tail a = Ret (cs', u') ->
  exists c,
    cs' = c :: snd (ChangeTracking.absorb to a tail)
    /\ TrackedChange.author c = TrackedChange.author change
    /\ TrackedChange.from c = Z.min (TrackedChange.from change) from
    /\ TrackedChange.to c
       = Z.max (TrackedChange.to
                  (last (change :: fst (ChangeTracking.absorb to a tail))
                     change)) to
    /\ u' = u ++ [(c, if from <=? TrackedChange.from change then -1 else 1)].
Proof.
  unfold ChangeTracking.merge.
  destruct (ChangeTracking.absorb to a tail) as [abs kept].
  intros H. apply bind_inv in H. destruct H as (sl & _ & H).
  inversion H; subst. eexists. repeat split; reflexivity.
Qed.

Lemma recordRange_scan_frame (d : Doc) (from to : Z) (a : Author)
    (u : Updated) (cs cs' : list TC) (u' : Updated) :
  ChangeTracking.recordRange_scan d from to a u cs = Ret (cs', u') ->
  filter (other_author a) cs' = filter (other_author a) cs
  /\ ChangeTracking.recordRange_scan d from to a u (filter (by_author a) cs)
     = Ret (filter (by_author a) cs', u').
Proof.
  revert cs' u'. induction cs as [|change rest IH]; intros cs' u' H.
  - simpl in *. apply bind_inv in H. destruct H as (s & Hs & H).
    inversion H; subst. rewrite Hs. simpl.
    unfold other_author, by_author. simpl. rewrite String.eqb_refl.
    split; reflexivity.
  - simpl in H. unfold other_author, by_author in *.
    destruct (String.eqb (TrackedChange.author change) a) eqn:Ea;
      simpl in H.
    + destruct (TrackedChange.to change <? from) eqn:Elt.
      * apply bind_inv in H. destruct H as ([cs1 u1] & H1 & H).
        inversion H; subst. destruct (IH _ _ H1) as [IH1 IH2].
        simpl. rewrite Ea. simpl. rewrite Ea, Elt. simpl.
        rewrite IH2. simpl. split; [assumption | reflexivity].
      * destruct (TrackedChange.from change >? to) eqn:Egt.
        -- apply bind_inv in H. destruct H as (s & Hs & H).
           inversion H; subst. simpl. rewrite String.eqb_refl, Ea. simpl.
           rewrite Ea, Elt, Egt, Hs. simpl. split; reflexivity.
        -- simpl. rewrite Ea. simpl. rewrite Ea, Elt, Egt. simpl.
           unfold ChangeTracking.merge in *.
           destruct (absorb_frame to a rest) as (F1 & F2 & F3).
           unfold other_author, by_author in F1, F3. rewrite F3.
           destruct (ChangeTracking.absorb to a rest) as [abs kept].
           simpl in *.
           apply bind_inv in H. destruct H as (sl & Hsl & H).
           inversion H; subst. rewrite Hsl. simpl. rewrite ?Ea. simpl.
           rewrite ?Ea. simpl. split; [assumption | reflexivity].
    + apply bind_inv in H. destruct H as ([cs1 u1] & H1 & H).
      inversion H; subst. destruct (IH _ _ H1) as [IH1 IH2].
      simpl. rewrite Ea. simpl. rewrite IH1, IH2. split; reflexivity.
Qed.

End Frame.

(** C9. [recordRange] leaves the changes of every other author as they
    are, in their order, and they do not stand in the way of the merge: the
    author's own changes come out as if the others were not in the set. *)
Theorem recordRange_other_authors_untouched {DM : DocModel}
    (d : Doc) (from to : Z) (a : Author) (cs : list TC) (u : Updated)
    (cs' : list TC) (u' : Updated) :
  ChangeTracking.recordRange d from to a (cs, u) = Ret (cs', u') ->
  filter (other_author a) cs' = filter (other_author a) cs
  /\ ChangeTracking.recordRange d from to a (filter (by_author a) cs, u)
     = Ret (filter (by_author a) cs', u').
Proof. apply recordRange_scan_frame. Qed.

(** ** The shape of what [recordRange] does to one author's changes *)

Section Shape.
Context {DM : DocModel}.

Lemma StronglySorted_app_inv (R : TC -> TC -> Prop) (l1 l2 : list TC) :
  StronglySorted R (l1 ++ l2) ->
  StronglySorted R l1 /\ StronglySorted R l2
  /\ (forall x y, In x l1 -> In y l2 -> R x y).
Proof.
  induction l1 as [|x l1 IH]; simpl; intros H.
  - repeat split; [constructor | assumption | contradiction].
  - apply StronglySorted_inv in H. destruct H as [H1 H2].
    destruct (IH H1) as (S1 & S2 & S12).
    rewrite Forall_app in H2. destruct H2 as [F1 F2].
    repeat split; try assumption.
    + constructor; assumption.
    + intros x' y [->|Hx] Hy.
      * rewrite Forall_forall in F2. now apply F2.
      * now apply S12.
Qed.

Lemma StronglySorted_app (R : TC -> TC -> Prop) (l1 l2 : list TC) :
  StronglySorted R l1 -> StronglySorted R l2 ->
  (forall x y, In x l1 -> In y l2 -> R x y) ->
  StronglySorted R (l1 ++ l2).
Proof.
  induction l1 as [|x l1 IH]; simpl; intros S1 S2 S12; [assumption|].
  apply StronglySorted_inv in S1. destruct S1 as [S1 F1].
  constructor.
  - apply IH; auto.
  - rewrite Forall_app. split; [assumption|].
    rewrite Forall_forall. intros y Hy. apply S12; auto.
Qed.

Lemma StronglySorted_filter (R : TC -> TC -> Prop) (f : TC -> bool)
    (l : list TC) :
  StronglySorted R l -> StronglySorted R (filter f l).
Proof.
  induction 1 as [|x l HS IH HF]; simpl; [constructor|].
  destruct (f x); [|assumption].
  constructor; [assumption|].
  rewrite Forall_forall in *. intros y Hy. apply filter_In in Hy.
  now apply HF.
Qed.

(** A run of changes is replaced by one that sits between its neighbours. *)
Lemma StronglySorted_replace_run (R : TC -> TC -> Prop)
    (pre mid post : list TC) (c : TC) :
  StronglySorted R (pre ++ mid ++ post) ->
  (forall p, In p pre -> R p c) ->
  (forall q, In q post -> R c q) ->
  StronglySorted R (pre ++ c :: post).
Proof.
  intros H Hpre Hpost.
  apply StronglySorted_app_inv in H. destruct H as (S1 & S2 & S12).
  apply StronglySorted_app_inv in S2. destruct S2 as (_ & S3 & _).
  apply StronglySorted_app; [assumption | |].
  - constructor; [assumption|]. rewrite Forall_forall. exact Hpost.
  - intros x y Hx [<-|Hy]; [now apply Hpre|].
    apply S12; [assumption|]. apply in_or_app. now right.
Qed.

Lemma absorb_own (to : Z) (a : Author) (tail : list TC) :
  Forall (fun c => by_author a c = true) tail ->
  tail = fst (ChangeTracking.absorb to a tail)
         ++ snd (ChangeTracking.absorb to a tail)
  /\ Forall (fun c => TrackedChange.from c <= to)
       (fst (ChangeTracking.absorb to a tail))
  /\ (forall c, hd_error (snd (ChangeTracking.absorb to a tail)) = Some c ->
      to < TrackedChange.from c).
Proof.
  induction tail as [|next rest IH]; intros Hown; simpl.
  - repeat split; [constructor | discriminate].
  - apply Forall_cons_iff in Hown. destruct Hown as [Ha Hrest].
    unfold by_author in Ha. rewrite Ha. simpl.
    destruct (TrackedChange.from next >? to) eqn:Egt; simpl.
    + repeat split; [constructor|]. intros c Hc. inversion Hc; subst. lia.
    + destruct (IH Hrest) as (I1 & I2 & I3).
      destruct (ChangeTracking.absorb to a rest) as [abs kept]. simpl in *.
      repeat split.
      * now rewrite <- I1.
      * constructor; [lia | assumption].
      * assumption.
Qed.

(** On the changes of the recording author alone: the changes in front
    end before [from]; a run [mid] of changes that start at or before
    [to] gives way to one change; what follows starts behind [to]. *)
Lemma recordRange_scan_shape (d : Doc) (from to : Z) (a : Author)
    (u : Updated) (cs cs' : list TC) (u' : Updated) :
  Forall (fun c => by_author a c = true) cs ->
  ChangeTracking.recordRange_scan d from to a u cs = Ret (cs', u') ->
  exists pre mid post c,
    cs = pre ++ mid ++ post
    /\ cs' = pre ++ c :: post
    /\ Forall (fun p => TrackedChange.to p < from) pre
    /\ Forall (fun m => TrackedChange.from m <= to) mid
    /\ (forall q, hd_error post = Some q -> to < TrackedChange.from q)
    /\ TrackedChange.author c = a
    /\ TrackedChange.from c
       = match mid with
         | [] => from
         | m :: _ => Z.min (TrackedChange.from m) from
         end
    /\ TrackedChange.to c
       = match mid with
         | [] => to
         | m :: _ => Z.max (TrackedChange.to (last mid m)) to
         end.
Proof.
  revert cs' u'. induction cs as [|change rest IH]; intros cs' u' Hown H.
  - simpl in H. apply bind_inv in H. destruct H as (s & _ & H).
    inversion H; subst. exists [], [], [], (TrackedChange.new from to s a).
    simpl. repeat split; try constructor. discriminate.
  - apply Forall_cons_iff in Hown. destruct Hown as [Ha Hrest].
    simpl in H. unfold by_author in Ha. rewrite Ha in H. simpl in H.
    destruct (TrackedChange.to change <? from) eqn:Elt.
    + apply bind_inv in H. destruct H as ([cs1 u1] & H1 & H).
      inversion H; subst.
      destruct (IH _ _ Hrest H1)
        as (pre & mid & post & c & E1 & E2 & F1 & F2 & F3 & F4 & F5 & F6).
      exists (change :: pre), mid, post, c. simpl.
      rewrite E1, E2. repeat split; try assumption.
      constructor; [lia | assumption].
    + destruct (TrackedChange.from change >? to) eqn:Egt.
      * apply bind_inv in H. destruct H as (s & _ & H).
        inversion H; subst.
        exists [], [], (change :: rest), (TrackedChange.new from to s a).
        simpl. repeat split; try constructor.
        intros q Hq. inversion Hq; subst. lia.
      * apply merge_inv in H.
        destruct H as (c & E & Eauth & Efrom & Eto & _).
        destruct (absorb_own to a rest Hrest) as (A1 & A2 & A3).
        destruct (ChangeTracking.absorb to a rest) as [abs kept].
        simpl in *.
        exists [], (change :: abs), kept, c. simpl.
        split; [f_equal; exact A1|]. split; [exact E|].
        split; [constructor|]. split; [constructor; [lia | assumption]|].
        split; [exact A3|].
        split; [rewrite Eauth; now apply String.eqb_eq|].
        split; assumption.
Qed.

End Shape.

(** ** [recordRange] keeps an author's changes in order and apart *)

Section RecordRangeInvariants.
Context {DM : DocModel}.

Lemma last_default (l : list TC) (x d d' : TC) :
  last (x :: l) d = last (x :: l) d'.
Proof.
  revert x. induction l as [|y l IH]; intros x; [reflexivity|].
  change (last (y :: l) d = last (y :: l) d'). apply IH.
Qed.

Lemma last_In (l : list TC) (m : TC) : In (last (m :: l) m) (m :: l).
Proof.
  revert m. induction l as [|x l IH]; intros m; [now left|].
  right. change (In (last (x :: l) m) (x :: l)).
  rewrite (last_default l x m x). apply IH.
Qed.

(** What follows the run starts behind [to]. *)
Lemma post_behind (R : TC -> TC -> Prop) (to : Z) (post : list TC) :
  (forall c1 c2, R c1 c2 -> well_formed c1 ->
                 TrackedChange.from c1 <= TrackedChange.from c2) ->
  StronglySorted R post -> Forall well_formed post ->
  (forall q, hd_error post = Some q -> to < TrackedChange.from q) ->
  forall q, In q post -> to < TrackedChange.from q.
Proof.
  intros HR HS Hwf Hhd q Hq. destruct post as [|q0 post]; [contradiction|].
  specialize (Hhd q0 eq_refl). destruct Hq as [<-|Hq]; [assumption|].
  apply StronglySorted_inv in HS. destruct HS as [_ HF].
  rewrite Forall_forall in HF. apply Forall_cons_iff in Hwf.
  specialize (HR q0 q (HF q Hq) (proj1 Hwf)). lia.
Qed.

Lemma recordRange_own_in_order (d : Doc) (from to : Z) (a : Author)
    (u : Updated) (cs cs' : list TC) (u' : Updated) :
  from <= to ->
  Forall (fun c => by_author a c = true) cs ->
  Forall well_formed cs ->
  StronglySorted starts_le cs -> StronglySorted ends_le cs ->
  ChangeTracking.recordRange_scan d from to a u cs = Ret (cs', u') ->
  Forall well_formed cs'
  /\ StronglySorted starts_le cs' /\ StronglySorted ends_le cs'.
Proof.
  intros Hft Hown Hwf Hs He H.
  destruct (recordRange_scan_shape _ _ _ _ _ _ _ _ Hown H)
    as (pre & mid & post & c & E1 & E2 & Fpre & Fmid & Fpost & _ & Ef & Et).
  subst cs cs'.
  assert (Hwf' := Hwf). rewrite !Forall_app in Hwf'.
  destruct Hwf' as (Wpre & Wmid & Wpost).
  rewrite Forall_forall in Fpre, Wpre, Fmid.
  destruct (StronglySorted_app_inv _ _ _ Hs) as (_ & Hs2 & Hs12).
  destruct (StronglySorted_app_inv _ _ _ Hs2) as (_ & Hspost & _).
  destruct (StronglySorted_app_inv _ _ _ He) as (_ & He2 & _).
  destruct (StronglySorted_app_inv _ _ _ He2) as (_ & _ & He23).
  assert (Hbehind : forall q, In q post -> to < TrackedChange.from q).
  { apply (post_behind starts_le); auto. }
  assert (Hfc : TrackedChange.from c <= from).
  { rewrite Ef. destruct mid; lia. }
  assert (Htc : to <= TrackedChange.to c).
  { rewrite Et. destruct mid; lia. }
  assert (Wc : well_formed c) by (unfold well_formed; lia).
  split; [|split].
  - rewrite Forall_app. split; [rewrite Forall_forall; exact Wpre|].
    constructor; assumption.
  - apply StronglySorted_replace_run with (mid := mid); [assumption| |].
    + intros p Hp. unfold starts_le. rewrite Ef.
      specialize (Fpre p Hp). specialize (Wpre p Hp).
      unfold well_formed in Wpre.
      destruct mid as [|m mid]; [lia|].
      assert (starts_le p m).
      { apply Hs12; [assumption|]. now left. }
      unfold starts_le in *. lia.
    + intros q Hq. unfold starts_le. specialize (Hbehind q Hq). lia.
  - apply StronglySorted_replace_run with (mid := mid); [assumption| |].
    + intros p Hp. unfold ends_le. specialize (Fpre p Hp). lia.
    + intros q Hq. unfold ends_le. rewrite Et.
      specialize (Hbehind q Hq).
      rewrite Forall_forall in Wpost. specialize (Wpost q Hq).
      unfold well_formed in Wpost.
      destruct mid as [|m mid]; [lia|].
      assert (ends_le (last (m :: mid) m) q).
      { apply He23; [apply last_In | assumption]. }
      unfold ends_le in *. lia.
Qed.

Lemma recordRange_own_kept_apart (d : Doc) (from to : Z) (a : Author)
    (u : Updated) (cs cs' : list TC) (u' : Updated) :
  from <= to ->
  Forall (fun c => by_author a c = true) cs ->
  Forall well_formed cs -> StronglySorted apart cs ->
  ChangeTracking.recordRange_scan d from to a u cs = Ret (cs', u') ->
  Forall well_formed cs' /\ StronglySorted apart cs'.
Proof.
  intros Hft Hown Hwf Hs H.
  destruct (recordRange_scan_shape _ _ _ _ _ _ _ _ Hown H)
    as (pre & mid & post & c & E1 & E2 & Fpre & Fmid & Fpost & _ & Ef & Et).
  subst cs cs'.
  assert (Hwf' := Hwf). rewrite !Forall_app in Hwf'.
  destruct Hwf' as (Wpre & Wmid & Wpost).
  rewrite Forall_forall in Fpre, Wpre, Fmid.
  destruct (StronglySorted_app_inv _ _ _ Hs) as (_ & Hs2 & Hs12).
  destruct (StronglySorted_app_inv _ _ _ Hs2) as (_ & Hspost & Hs23).
  assert (Hbehind : forall q, In q post -> to < TrackedChange.from q).
  { apply (post_behind apart); auto.
    unfold apart, well_formed. intros; lia. }
  assert (Hfc : TrackedChange.from c <= from).
  { rewrite Ef. destruct mid; lia. }
  assert (Htc : to <= TrackedChange.to c).
  { rewrite Et. destruct mid; lia. }
  split.
  - rewrite Forall_app. split; [rewrite Forall_forall; exact Wpre|].
    constructor; [unfold well_formed; lia | assumption].
  - apply StronglySorted_replace_run with (mid := mid); [assumption| |].
    + intros p Hp. unfold apart. rewrite Ef. specialize (Fpre p Hp).
      destruct mid as [|m mid]; [lia|].
      assert (apart p m).
      { apply Hs12; [assumption|]. now left. }
      unfold apart in *. lia.
    + intros q Hq. unfold apart. rewrite Et. specialize (Hbehind q Hq).
      destruct mid as [|m mid]; [lia|].
      assert (apart (last (m :: mid) m) q).
      { apply Hs23; [apply last_In | assumption]. }
      unfold apart in *. lia.
Qed.

End RecordRangeInvariants.

(** ** Invariants of the change set *)

Section Invariants.
Context {DM : DocModel}.

Lemma own_all (a : Author) (cs : list TC) :
  Forall (fun c => by_author a c = true) (own a cs).
Proof. apply Forall_forall. intros c Hc. now apply filter_In in Hc. Qed.

Lemma own_of_others (a b : Author) (cs : list TC) :
  a <> b -> own b (filter (other_author a) cs) = own b cs.
Proof.
  intros Hab. induction cs as [|c cs IH]; [reflexivity|].
  simpl. unfold other_author, by_author.
  destruct (String.eqb (TrackedChange.author c) a) eqn:Ea; simpl.
  - apply String.eqb_eq in Ea.
    destruct (String.eqb (TrackedChange.author c) b) eqn:Eb.
    + apply String.eqb_eq in Eb. congruence.
    + exact IH.
  - unfold by_author at 1.
    destruct (String.eqb (TrackedChange.author c) b); [f_equal|]; exact IH.
Qed.

Lemma recordRange_own_other (d : Doc) (from to : Z) (a b : Author)
    (cs : list TC) (u : Updated) (cs' : list TC) (u' : Updated) :
  a <> b ->
  ChangeTracking.recordRange d from to a (cs, u) = Ret (cs', u') ->
  own b cs' = own b cs.
Proof.
  intros Hab H. apply recordRange_scan_frame in H. destruct H as [H _].
  rewrite <- (own_of_others a b cs' Hab), H. now apply own_of_others.
Qed.

Lemma recordRange_in_order (d : Doc) (from to : Z) (a : Author)
    (cs : list TC) (u : Updated) (cs' : list TC) (u' : Updated) :
  from <= to ->
  ChangeTracking.recordRange d from to a (cs, u) = Ret (cs', u') ->
  forall b, in_order b cs -> in_order b cs'.
Proof.
  intros Hft H b (Hwf & Hs & He). unfold in_order.
  destruct (string_dec a b) as [<-|Hab].
  - apply recordRange_scan_frame in H. destruct H as [_ H].
    apply (recordRange_own_in_order _ _ _ _ _ _ _ _ Hft (own_all a cs)
             Hwf Hs He H).
  - rewrite (recordRange_own_other _ _ _ _ _ _ _ _ _ Hab H). auto.
Qed.

Lemma recordRange_kept_apart (d : Doc) (from to : Z) (a : Author)
    (cs : list TC) (u : Updated) (cs' : list TC) (u' : Updated) :
  from <= to ->
  ChangeTracking.recordRange d from to a (cs, u) = Ret (cs', u') ->
  forall b, kept_apart b cs -> kept_apart b cs'.
Proof.
  intros Hft H b (Hwf & Hs). unfold kept_apart.
  destruct (string_dec a b) as [<-|Hab].
  - apply recordRange_scan_frame in H. destruct H as [_ H].
    apply (recordRange_own_kept_apart _ _ _ _ _ _ _ _ Hft (own_all a cs)
             Hwf Hs H).
  - rewrite (recordRange_own_other _ _ _ _ _ _ _ _ _ Hab H). auto.
Qed.

(** *** Mapping *)

Lemma map_Some (c c' : TC) (m : PosMap) (inclusive : bool) :
  TrackedChange.map c m inclusive = Some c' ->
  TrackedChange.from c' = m (TrackedChange.from c) (if inclusive then -1 else 1)
  /\ TrackedChange.to c' = m (TrackedChange.to c) (if inclusive then 1 else -1)
  /\ TrackedChange.author c' = TrackedChange.author c
  /\ well_formed c'.
Proof.
  unfold TrackedChange.map, well_formed.
  destruct (_ >? _) eqn:Egt; simpl; [discriminate|].
  destruct (_ && _); [discriminate|].
  intros H. inversion H; subst; simpl. repeat split. lia.
Qed.

Lemma own_mapped (m : PosMap) (author : option Author) (b : Author)
    (cs : list TC) :
  own b (flat_map (mapped_list m author) cs)
  = flat_map (mapped_list m author) (own b cs).
Proof.
  induction cs as [|c cs IH]; [reflexivity|].
  simpl. unfold own in *. rewrite filter_app, IH.
  assert (Hc : filter (by_author b) (mapped_list m author c)
               = if by_author b c then mapped_list m author c else []).
  { unfold mapped_list.
    destruct (TrackedChange.map c m _) as [c'|] eqn:Em.
    - apply map_Some in Em. destruct Em as (_ & _ & Ea & _).
      simpl. unfold by_author. rewrite Ea.
      destruct (String.eqb (TrackedChange.author c) b); reflexivity.
    - destruct (by_author b c); reflexivity. }
  rewrite Hc. destruct (by_author b c); reflexivity.
Qed.

Lemma mapped_well_formed (m : PosMap) (author : option Author)
    (cs : list TC) :
  Forall well_formed (flat_map (mapped_list m author) cs).
Proof.
  apply Forall_forall. intros c' H. apply in_flat_map in H.
  destruct H as (c & _ & H). unfold mapped_list in H.
  destruct (TrackedChange.map c m _) eqn:Em; [|contradiction].
  destruct H as [<-|[]]. now apply map_Some in Em.
Qed.

(** The changes of one author are mapped with one and the same bias, so
    a relation the map respects goes over to the mapped changes. *)
Lemma mapped_sorted (R R' : TC -> TC -> Prop) (m : PosMap)
    (author : option Author) (b : Author) (cs : list TC) :
  (forall x y x' y' flag,
      R x y -> TrackedChange.map x m flag = Some x' ->
      TrackedChange.map y m flag = Some y' -> R' x' y') ->
  Forall (fun c => by_author b c = true) cs ->
  StronglySorted R cs ->
  StronglySorted R' (flat_map (mapped_list m author) cs).
Proof.
  intros HR Hown HS. induction HS as [|x cs HS IH HF]; [constructor|].
  apply Forall_cons_iff in Hown. destruct Hown as [Hx Hown].
  simpl. unfold mapped_list at 1.
  destruct (TrackedChange.map x m _) as [x'|] eqn:Ex; [|now apply IH].
  simpl. constructor; [now apply IH|].
  apply Forall_forall. intros y' Hy'. apply in_flat_map in Hy'.
  destruct Hy' as (y & Hy & Hy'). unfold mapped_list in Hy'.
  destruct (TrackedChange.map y m _) as [y''|] eqn:Ey; [|contradiction].
  destruct Hy' as [<-|[]].
  rewrite Forall_forall in HF, Hown.
  apply String.eqb_eq in Hx. pose proof (Hown y Hy) as Hyb.
  apply String.eqb_eq in Hyb. rewrite Hx in Ex. rewrite Hyb in Ey.
  exact (HR x y x' y'' _ (HF y Hy) Ex Ey).
Qed.

Lemma mapChanges_in_order (m : PosMap) (author : option Author)
    (cs cs' : list TC) :
  monotone m ->
  mapChanges cs m author None None = Ret cs' ->
  forall b, in_order b cs -> in_order b cs'.
Proof.
  intros Hm H b (Hwf & Hs & He). rewrite mapChanges_plain in H.
  inversion H; subst. unfold in_order. rewrite own_mapped.
  split; [apply mapped_well_formed|]. split.
  - apply (mapped_sorted starts_le starts_le m author b); auto using own_all.
    intros x y x' y' flag Hxy Hx Hy. apply map_Some in Hx, Hy.
    unfold starts_le in *. destruct Hx as (-> & _), Hy as (-> & _).
    now apply Hm.
  - apply (mapped_sorted ends_le ends_le m author b); auto using own_all.
    intros x y x' y' flag Hxy Hx Hy. apply map_Some in Hx, Hy.
    unfold ends_le in *. destruct Hx as (_ & -> & _), Hy as (_ & -> & _).
    now apply Hm.
Qed.

Lemma mapChanges_kept_apart (m : PosMap) (author : option Author)
    (cs cs' : list TC) :
  increasing m ->
  mapChanges cs m author None None = Ret cs' ->
  forall b, kept_apart b cs -> kept_apart b cs'.
Proof.
  intros Hm H b (Hwf & Hs). rewrite mapChanges_plain in H.
  inversion H; subst. unfold kept_apart. rewrite own_mapped.
  split; [apply mapped_well_formed|].
  apply (mapped_sorted apart apart m author b); auto using own_all.
  intros x y x' y' flag Hxy Hx Hy. apply map_Some in Hx, Hy.
  unfold apart in *. destruct Hx as (_ & -> & _), Hy as (-> & _).
  now apply Hm.
Qed.

Lemma reachable_in_order (cs : list TC) :
  reachable monotone cs -> forall b, in_order b cs.
Proof.
  induction 1 as [|cs u d from to a cs' u' _ IH Hft H
                  |cs m a cs' _ IH Hm H]; intros b.
  - repeat split; constructor.
  - exact (recordRange_in_order _ _ _ _ _ _ _ _ Hft H b (IH b)).
  - exact (mapChanges_in_order _ _ _ _ Hm H b (IH b)).
Qed.

Lemma reachable_kept_apart (cs : list TC) :
  reachable increasing cs -> forall b, kept_apart b cs.
Proof.
  induction 1 as [|cs u d from to a cs' u' _ IH Hft H
                  |cs m a cs' _ IH Hm H]; intros b.
  - repeat split; constructor.
  - exact (recordRange_kept_apart _ _ _ _ _ _ _ _ Hft H b (IH b)).
  - exact (mapChanges_kept_apart _ _ _ _ Hm H b (IH b)).
Qed.

(** *** From the sorted lists to the invariants, pair by pair *)

Lemma nth_error_two (cs : list TC) (i j : nat) (c1 c2 : TC) :
  (i < j)%nat -> nth_error cs i = Some c1 -> nth_error cs j = Some c2 ->
  exists l1 l2 l3, cs = l1 ++ c1 :: l2 ++ c2 :: l3.
Proof.
  intros Hij H1 H2.
  apply nth_error_split in H1. destruct H1 as (l1 & r & -> & Hl).
  rewrite nth_error_app2 in H2 by lia.
  replace (j - length l1)%nat with (S (j - length l1 - 1)) in H2 by lia.
  simpl in H2. apply nth_error_split in H2.
  destruct H2 as (l2 & l3 & -> & _). now exists l1, l2, l3.
Qed.

Lemma own_two (b : Author) (l1 l2 l3 : list TC) (c1 c2 : TC) :
  by_author b c1 = true -> by_author b c2 = true ->
  own b (l1 ++ c1 :: l2 ++ c2 :: l3)
  = own b l1 ++ c1 :: own b l2 ++ c2 :: own b l3.
Proof.
  intros H1 H2. unfold own. rewrite filter_app. simpl. rewrite H1.
  rewrite filter_app. simpl. rewrite H2. reflexivity.
Qed.

Lemma sorted_two (R : TC -> TC -> Prop) (l1 l2 l3 : list TC) (c1 c2 : TC) :
  StronglySorted R (l1 ++ c1 :: l2 ++ c2 :: l3) -> R c1 c2.
Proof.
  intros H. apply StronglySorted_app_inv in H. destruct H as (_ & H & _).
  apply StronglySorted_inv in H. destruct H as [_ H].
  rewrite Forall_forall in H. apply H. apply in_or_app. right. now left.
Qed.

Lemma kept_apart_no_overlap (cs : list TC) :
  (forall b, kept_apart b cs) -> no_overlap cs.
Proof.
  intros Hk i j c1 c2 Hij H1 H2 Ha Hle.
  destruct (Hk (TrackedChange.author c1)) as [Hwf HS].
  assert (B1 : by_author (TrackedChange.author c1) c1 = true)
    by apply String.eqb_refl.
  assert (B2 : by_author (TrackedChange.author c1) c2 = true)
    by (unfold by_author; rewrite Ha; apply String.eqb_refl).
  destruct (Nat.lt_ge_cases i j) as [Hlt|Hge].
  - destruct (nth_error_two _ _ _ _ _ Hlt H1 H2) as (l1 & l2 & l3 & ->).
    rewrite own_two in HS by assumption.
    exact (sorted_two _ _ _ _ _ _ HS).
  - assert (Hlt : (j < i)%nat) by lia.
    destruct (nth_error_two _ _ _ _ _ Hlt H2 H1) as (l1 & l2 & l3 & ->).
    rewrite own_two in HS, Hwf by assumption.
    apply sorted_two in HS. unfold apart in HS.
    rewrite Forall_app in Hwf. destruct Hwf as [_ Hwf].
    apply Forall_cons_iff in Hwf. destruct Hwf as [Hwf _].
    unfold well_formed in Hwf. lia.
Qed.

Lemma sorted_sorted_by_from (cs : list TC) :
  StronglySorted starts_le cs -> sorted_by_from cs.
Proof.
  intros HS i c1 c2 H1 H2.
  assert (Hlt : (i < S i)%nat) by lia.
  destruct (nth_error_two _ _ _ _ _ Hlt H1 H2) as (l1 & l2 & l3 & ->).
  exact (sorted_two _ _ _ _ _ _ HS).
Qed.

Lemma own_everything (a : Author) (cs : list TC) :
  Forall (fun c => TrackedChange.author c = a) cs -> own a cs = cs.
Proof.
  intros H. unfold own. induction H as [|c cs Hc _ IH]; [reflexivity|].
  simpl. unfold by_author at 1. rewrite Hc, String.eqb_refl. now f_equal.
Qed.

End Invariants.

(** ** Step maps with one range keep the order of positions *)

Ltac split_cmp :=
  rewrite ?Z.gtb_ltb, ?Z.geb_leb;
  repeat match goal with
  | |- context [?a =? ?b] => destruct (Z.eqb_spec a b)
  | |- context [?a <? ?b] => destruct (Z.ltb_spec a b)
  | |- context [?a <=? ?b] => destruct (Z.leb_spec a b)
  end.

Lemma single_range_monotone (s o n : Z) :
  0 <= o -> 0 <= n -> monotone (StepMap.map [(s, o, n)]).
Proof.
  intros Ho Hn assoc p q Hpq. rewrite !StepMap_map_single.
  split_cmp; lia.
Qed.

Lemma insertion_increasing (s n : Z) :
  0 <= n -> increasing (StepMap.map [(s, 0, n)]).
Proof.
  intros Hn a b p q Hpq. rewrite !StepMap_map_single.
  split_cmp; lia.
Qed.

(** ** The tracker that records for one author *)

Section Tracker.
Context {DM : DocModel}.
Hypothesis Hdiff : diff_within.

(** Minimising only narrows a change. *)
Lemma minimize_shrinks (change : TC) (d : Doc) (side : Z) (c' : TC) :
  well_formed change ->
  minimizeChange change d side = Ret (Some c') ->
  TrackedChange.from change <= TrackedChange.from c'
  /\ TrackedChange.to c' <= TrackedChange.to change
  /\ well_formed c'
  /\ TrackedChange.author c' = TrackedChange.author change.
Proof.
  intros Hwf H. unfold minimizeChange in H.
  apply bind_inv in H. destruct H as (cx & Hcx & H).
  destruct (Hdiff change d cx Hwf Hcx) as [Hstart Hend].
  unfold well_formed in *.
  destruct (side =? -1).
  - unfold minimize_start in H.
    apply bind_inv in H. destruct H as (ds & Hds & H).
    destruct ds as [p|]; [|discriminate].
    specialize (Hstart p Hds).
    destruct (p =? 0); [discriminate|].
    destruct ((p =? TrackedChange.from change)
              || (p >=? TrackedChange.to change)) eqn:E.
    + inversion H; subst. repeat split; lia.
    + apply orb_false_iff in E. destruct E as [_ E].
      apply bind_inv in H. destruct H as (s & _ & H).
      inversion H; subst; simpl. repeat split; lia.
  - unfold minimize_end in H.
    apply bind_inv in H. destruct H as (de & Hde & H).
    destruct de as [[a b]|]; [|discriminate].
    specialize (Hend a b Hde).
    destruct ((a =? TrackedChange.to change)
              || (a <=? TrackedChange.from change)
              || (b <=? TrackedChange.from change)) eqn:E.
    + inversion H; subst. repeat split; lia.
    + apply orb_false_iff in E. destruct E as [E _].
      apply orb_false_iff in E. destruct E as [_ E].
      apply bind_inv in H. destruct H as (s & _ & H).
      inversion H; subst; simpl. repeat split; lia.
Qed.

(** What [mapChanges] keeps of a change lies within the mapped change. *)
Lemma mapChange_bounds (m : PosMap) (author : option Author)
    (updated : option Updated) (docAfter : option Doc) (c c'' : TC) :
  mapChange m author updated docAfter c = Ret (Some c'') ->
  exists c',
    TrackedChange.map c m (author_is author (TrackedChange.author c))
    = Some c'
    /\ TrackedChange.from c' <= TrackedChange.from c''
    /\ TrackedChange.to c'' <= TrackedChange.to c'
    /\ well_formed c''
    /\ TrackedChange.author c'' = TrackedChange.author c.
Proof.
  unfold mapChange. intros H.
  destruct (TrackedChange.map c m _) as [c'|] eqn:Em; [|discriminate].
  exists c'. split; [reflexivity|].
  pose proof (map_Some _ _ _ _ Em) as (_ & _ & Ea & Hwf).
  assert (Hsame : Ret (Some c') = Ret (Some c'') ->
                  TrackedChange.from c' <= TrackedChange.from c''
                  /\ TrackedChange.to c'' <= TrackedChange.to c'
                  /\ well_formed c''
                  /\ TrackedChange.author c'' = TrackedChange.author c).
  { intros E. inversion E; subst. repeat split; auto; lia. }
  destruct updated as [upd|]; [|now apply Hsame].
  destruct (updated_side upd c) as [side|]; [|now apply Hsame].
  destruct docAfter as [d|]; [|discriminate].
  destruct (minimize_shrinks c' d side c'' Hwf H) as (H1 & H2 & H3 & H4).
  repeat split; auto. congruence.
Qed.

(** Through a step map with one range, mapped with the bias of the
    recording author, changes that are apart and clear of the range stay
    apart. *)
Lemma apart_mapped (s o n : Z) (x y : TC) :
  0 <= o -> 0 <= n ->
  well_formed x -> well_formed y ->
  clear_of s o x -> clear_of s o y -> apart x y ->
  StepMap.map [(s, o, n)] (TrackedChange.to x) 1
  < StepMap.map [(s, o, n)] (TrackedChange.from y) (-1).
Proof.
  unfold well_formed, clear_of, apart. intros Ho Hn Hx Hy Cx Cy Hxy.
  rewrite !StepMap_map_single. split_cmp; lia.
Qed.

Lemma mapChanges_inv (m : PosMap) (author : option Author)
    (updated : option Updated) (docAfter : option Doc)
    (c : TC) (cs cs' : list TC) :
  mapChanges (c :: cs) m author updated docAfter = Ret cs' ->
  exists o rest,
    mapChange m author updated docAfter c = Ret o
    /\ mapChanges cs m author updated docAfter = Ret rest
    /\ cs' = match o with Some c'' => c'' :: rest | None => rest end.
Proof.
  simpl. intros H. apply bind_inv in H. destruct H as (o & Ho & H).
  apply bind_inv in H. destruct H as (rest & Hrest & H).
  inversion H; subst. now exists o, rest.
Qed.

(** Every change [mapChanges] returns comes from one it was given. *)
Lemma mapChanges_origin (m : PosMap) (author : option Author)
    (updated : option Updated) (docAfter : option Doc)
    (cs cs' : list TC) (c'' : TC) :
  mapChanges cs m author updated docAfter = Ret cs' ->
  In c'' cs' ->
  exists c, In c cs /\ mapChange m author updated docAfter c = Ret (Some c'').
Proof.
  revert cs'. induction cs as [|c cs IH]; intros cs' H Hin.
  - inversion H; subst. contradiction.
  - apply mapChanges_inv in H. destruct H as (o & rest & Ho & Hrest & ->).
    destruct o as [c0|].
    + destruct Hin as [<-|Hin].
      * exists c. split; [now left | assumption].
      * destruct (IH rest Hrest Hin) as (c1 & H1 & H2).
        exists c1. split; [now right | assumption].
    + destruct (IH rest Hrest Hin) as (c1 & H1 & H2).
      exists c1. split; [now right | assumption].
Qed.

(** One step of [record] after its [recordRange]: the changes of the
    recording author, apart and clear of the range, stay apart. *)
Lemma mapChanges_step_apart (s o n : Z) (a : Author)
    (updated : option Updated) (docAfter : option Doc) (cs cs' : list TC) :
  0 <= o -> 0 <= n ->
  Forall (fun c => TrackedChange.author c = a) cs ->
  Forall well_formed cs -> Forall (clear_of s o) cs ->
  StronglySorted apart cs ->
  mapChanges cs (StepMap.map [(s, o, n)]) (Some a) updated docAfter
  = Ret cs' ->
  Forall (fun c => TrackedChange.author c = a) cs'
  /\ Forall well_formed cs' /\ StronglySorted apart cs'.
Proof.
  intros Ho Hn. revert cs'.
  induction cs as [|c cs IH]; intros cs' Ha Hwf Hcl HS H.
  - inversion H; subst. repeat split; constructor.
  - apply mapChanges_inv in H. destruct H as (o' & rest & Hc & Hrest & ->).
    apply Forall_cons_iff in Ha, Hwf, Hcl.
    destruct Ha as [Ha Has], Hwf as [Hwf Hwfs], Hcl as [Hcl Hcls].
    apply StronglySorted_inv in HS. destruct HS as [HS HF].
    destruct (IH rest Has Hwfs Hcls HS Hrest) as (I1 & I2 & I3).
    destruct o' as [c''|]; [|repeat split; assumption].
    destruct (mapChange_bounds _ _ _ _ _ _ Hc)
      as (c' & Em & B1 & B2 & B3 & B4).
    split; [constructor; [congruence | assumption]|].
    split; [constructor; assumption|].
    constructor; [assumption|].
    apply Forall_forall. intros y'' Hy''.
    destruct (mapChanges_origin _ _ _ _ _ _ _ Hrest Hy'') as (y & Hy & Hmy).
    destruct (mapChange_bounds _ _ _ _ _ _ Hmy)
      as (y' & Emy & Y1 & Y2 & Y3 & Y4).
    rewrite Forall_forall in HF, Has, Hwfs, Hcls.
    rewrite Ha, author_is_same in Em.
    rewrite (Has y Hy), author_is_same in Emy.
    apply map_Some in Em, Emy.
    destruct Em as (_ & Et & _), Emy as (Ef & _).
    pose proof (apart_mapped s o n c y Ho Hn Hwf (Hwfs y Hy) Hcl
                  (Hcls y Hy) (HF y Hy)) as Hlt.
    unfold apart. lia.
Qed.

(** After [recordRange] over [[s, s + o]], the changes of the author are
    clear of that range. *)
Lemma recordRange_clear (d : Doc) (s o : Z) (a : Author) (u : Updated)
    (cs cs' : list TC) (u' : Updated) :
  0 <= o ->
  Forall (fun c => by_author a c = true) cs ->
  Forall well_formed cs -> StronglySorted apart cs ->
  ChangeTracking.recordRange_scan d s (s + o) a u cs = Ret (cs', u') ->
  Forall (fun c => by_author a c = true) cs' /\ Forall (clear_of s o) cs'.
Proof.
  intros Ho Hown Hwf HS H.
  destruct (recordRange_scan_shape _ _ _ _ _ _ _ _ Hown H)
    as (pre & mid & post & c & E1 & E2 & Fpre & Fmid & Fpost & Ea & Ef & Et).
  subst cs cs'.
  rewrite !Forall_app in Hwf, Hown.
  destruct Hwf as (Wpre & Wmid & Wpost), Hown as (Opre & Omid & Opost).
  destruct (StronglySorted_app_inv _ _ _ HS) as (_ & HS2 & _).
  destruct (StronglySorted_app_inv _ _ _ HS2) as (_ & HSpost & _).
  assert (Hbehind : forall q, In q post -> s + o < TrackedChange.from q).
  { apply (post_behind apart); auto.
    unfold apart, well_formed. intros; lia. }
  split.
  - rewrite Forall_app. split; [assumption|].
    constructor; [|assumption]. unfold by_author. rewrite Ea.
    apply String.eqb_refl.
  - rewrite Forall_app. split; [|constructor].
    + apply Forall_forall. intros p Hp. rewrite Forall_forall in Fpre.
      left. now apply Fpre.
    + right. right. rewrite Ef, Et. destruct mid; lia.
    + apply Forall_forall. intros q Hq. right. left. now apply Hbehind.
Qed.

Lemma by_author_all (a : Author) (cs : list TC) :
  Forall (fun c => TrackedChange.author c = a) cs <->
  Forall (fun c => by_author a c = true) cs.
Proof.
  split; intros H; eapply Forall_impl; try exact H; intros c Hc;
    unfold by_author in *; [subst; apply String.eqb_refl |
                            now apply String.eqb_eq].
Qed.

Lemma record_steps_inv (a : Author) (final : Doc)
    (sts : list (Doc * StepMap.t)) (cs cs' : list TC) :
  Forall (fun st => single_range (snd st)) sts ->
  tracker_inv a cs ->
  ChangeTracking.record_steps sts final a cs = Ret cs' ->
  tracker_inv a cs'.
Proof.
  intros Hsts. revert cs cs'.
  induction Hsts as [|[d m] sts Hm _ IH]; intros cs cs' (Ha & Hwf & HS) H.
  - inversion H; subst. repeat split; assumption.
  - destruct Hm as (s & o & n & Em & Ho & Hn). simpl in Em. subst m.
    simpl in H. apply bind_inv in H. destruct H as ([cs1 upd] & H1 & H).
    apply bind_inv in H1. destruct H1 as ([cs1' upd'] & H1 & E).
    inversion E; subst cs1' upd'. clear E.
    apply bind_inv in H. destruct H as (cs2 & H2 & H).
    unfold ChangeTracking.recordRange in H1. simpl in H1.
    apply by_author_all in Ha.
    assert (Hft : s <= s + o) by lia.
    destruct (recordRange_own_kept_apart _ _ _ _ _ _ _ _ Hft Ha Hwf HS H1)
      as [Hwf1 HS1].
    destruct (recordRange_clear _ _ _ _ _ _ _ _ Ho Ha Hwf HS H1)
      as [Ha1 Hcl1].
    apply by_author_all in Ha1.
    pose proof (mapChanges_step_apart s o n a _ _ cs1 cs2 Ho Hn Ha1 Hwf1
                  Hcl1 HS1 H2) as Hinv2.
    exact (IH cs2 cs' Hinv2 H).
Qed.

Lemma tracked_inv (a : Author) (cs : list TC) :
  tracked a cs -> tracker_inv a cs.
Proof.
  induction 1 as [|cs tr cs' _ IH Hsts H].
  - repeat split; constructor.
  - exact (record_steps_inv a _ _ _ _ Hsts IH H).
Qed.

Lemma apart_starts_le (cs : list TC) :
  Forall well_formed cs -> StronglySorted apart cs ->
  StronglySorted starts_le cs.
Proof.
  intros Hwf HS. induction HS as [|c cs HS IH HF]; [constructor|].
  apply Forall_cons_iff in Hwf. destruct Hwf as [Hc Hwf].
  constructor; [now apply IH|].
  eapply Forall_impl; [|exact HF]. unfold apart, starts_le, well_formed in *.
  intros y Hy. lia.
Qed.

Lemma tracked_no_overlap (a : Author) (cs : list TC) :
  tracked a cs -> no_overlap cs.
Proof.
  intros H. apply tracked_inv in H. destruct H as (_ & Hwf & HS).
  apply kept_apart_no_overlap. intros b. split.
  - apply Forall_forall. intros c Hc. apply filter_In in Hc.
    rewrite Forall_forall in Hwf. now apply Hwf.
  - now apply StronglySorted_filter.
Qed.

Lemma tracked_sorted (a : Author) (cs : list TC) :
  tracked a cs -> sorted_by_from cs.
Proof.
  intros H. apply tracked_inv in H. destruct H as (_ & Hwf & HS).
  apply sorted_sorted_by_from. now apply apart_starts_le.
Qed.

End Tracker.

(** ** The text-only model finds its differences within the change *)

Section FlatDiff.

Lemma common_prefix_app (p x y : Flat.Text) :
  Flat.common_prefix (p ++ x) (p ++ y)
  = (length p + Flat.common_prefix x y)%nat.
Proof.
  induction p as [|c p IH]; [reflexivity|].
  simpl. destruct (ascii_dec c c); [now rewrite IH | contradiction].
Qed.

Lemma flat_minimize_ctx (change : @TrackedChange.t Flat.model)
    (d : Flat.Text) (cx : @MinCtx Flat.model) :
  @minimize_ctx Flat.model change d = Ret cx ->
  mc_node cx = d
  /\ mc_sameDepth cx = O
  /\ mc_rfrom cx = (d, TrackedChange.from change)
  /\ mc_rchanged cx = (doc (mc_tr cx), TrackedChange.from change)
  /\ mc_changedNode cx = doc (mc_tr cx)
  /\ Flat.valid d (TrackedChange.from change) = true
  /\ (doc (mc_tr cx) = d
      \/ (Flat.valid d (TrackedChange.to change) = true
          /\ doc (mc_tr cx)
             = firstn (Z.to_nat (TrackedChange.from change)) d
               ++ TrackedChange.deleted change
               ++ skipn (Z.to_nat (TrackedChange.to change)) d)).
Proof.
  unfold minimize_ctx. intros H.
  apply bind_inv in H. destruct H as (tr & Htr & H).
  apply bind_inv in H. destruct H as (rfrom & Hrf & H).
  apply bind_inv in H. destruct H as (rch & Hrc & H).
  apply bind_inv in H. destruct H as (sd & Hsd & H).
  apply bind_inv in H. destruct H as (node & Hnode & H).
  apply bind_inv in H. destruct H as (cnode & Hcnode & H).
  inversion H; subst cx; clear H. simpl.
  simpl in Hrf, Hrc. unfold Flat.resolve in Hrf, Hrc.
  destruct (Flat.valid d (TrackedChange.from change)) eqn:Vf;
    [|discriminate].
  destruct (Flat.valid (doc tr) (TrackedChange.from change));
    [|discriminate].
  inversion Hrf; subst rfrom. inversion Hrc; subst rch. clear Hrf Hrc.
  assert (Hsd0 : sd = O).
  { simpl in Hsd. destruct (_ >? _); simpl in Hsd; [discriminate|].
    destruct (_ >? _); simpl in Hsd; [discriminate|]. now inversion Hsd. }
  subst sd. simpl in Hnode, Hcnode.
  inversion Hnode; subst node. inversion Hcnode; subst cnode.
  repeat split.
  unfold Transform_replace in Htr. simpl in Htr. unfold Flat.replace in Htr.
  destruct (_ && _); simpl in Htr.
  - inversion Htr; subst tr. now left.
  - destruct (Flat.valid d (TrackedChange.from change)
              && Flat.valid d (TrackedChange.to change)) eqn:V;
      simpl in Htr; [|discriminate].
    inversion Htr; subst tr. simpl. right.
    apply andb_true_iff in V. destruct V as [_ V]. now split.
Qed.

Lemma flat_diff_within : @diff_within Flat.model.
Proof.
  intros change d cx Hwf Hcx.
  destruct (flat_minimize_ctx change d cx Hcx)
    as (En & Ed & Erf & Erc & Ecn & Vf & Hdoc).
  unfold Flat.valid, Flat.size in Vf.
  apply andb_true_iff in Vf. destruct Vf as [Vf0 Vf1].
  unfold diffStart_of, diffEnd_of. rewrite En, Ed, Erf, Erc, Ecn. simpl.
  unfold Flat.diffStart, Flat.diffEnd.
  destruct Hdoc as [-> | [Vt ->]].
  - destruct (Flat.Text_eq_dec d d); [|contradiction].
    split; intros; discriminate.
  - unfold Flat.valid, Flat.size in Vt.
    apply andb_true_iff in Vt. destruct Vt as [Vt0 Vt1].
    destruct (Flat.Text_eq_dec _ _) as [_|_]; [split; intros; discriminate|].
    split.
    + intros p H. inversion H; subst p. clear H.
      rewrite <- (firstn_skipn (Z.to_nat (TrackedChange.from change)) d)
        at 1.
      rewrite common_prefix_app, length_firstn. lia.
    + intros a b H. inversion H; subst a b. clear H.
      rewrite <- (firstn_skipn (Z.to_nat (TrackedChange.to change)) d)
        at 2.
      rewrite !app_assoc, !rev_app_distr, common_prefix_app.
      rewrite length_rev, length_skipn. unfold Flat.size. lia.
Qed.

End FlatDiff.
(** ** The invariants on the reachable change sets *)

(** C2, as the program has it.  No two changes of one author overlap or
    touch (i) in every change set built from the empty one by calls of
    [recordRange] with [from <= to], for any authors, and by calls of
    [mapChanges] without updated changes through maps that keep distinct
    positions distinct and in order; and (ii) in every change set of a
    tracker that records for one author, one [record] after the other from
    the empty set, each step replacing one range, when the library finds
    the differences of a document and its reconstruction within the
    change that was put back. *)
Theorem no_overlap_reachable {DM : DocModel} :
  (forall cs, reachable increasing cs -> no_overlap cs)
  /\ (diff_within -> forall a cs, tracked a cs -> no_overlap cs).
Proof.
  split.
  - intros cs H. apply kept_apart_no_overlap. now apply reachable_kept_apart.
  - intros Hdiff a cs H. exact (tracked_no_overlap Hdiff a cs H).
Qed.

(** C7, as the program has it.  (i) In every change set built from the
    empty one by calls of [recordRange] with [from <= to] and by calls of
    [mapChanges] without updated changes through maps that keep the order
    of positions, the changes of each author are sorted by [from], and a
    change set of one author is sorted as a whole.  (ii) Every change set
    of a tracker that records for one author, one [record] after the other
    from the empty set, each step replacing one range, is sorted by
    [from], when the library finds the differences of a document and its
    reconstruction within the change that was put back. *)
Theorem sorted_per_author_reachable {DM : DocModel} :
  (forall cs, reachable monotone cs ->
     (forall a, sorted_by_from (own a cs))
     /\ (forall a, Forall (fun c => TrackedChange.author c = a) cs ->
                   sorted_by_from cs))
  /\ (diff_within -> forall a cs, tracked a cs -> sorted_by_from cs).
Proof.
  split.
  - intros cs H.
    assert (Hown : forall a, sorted_by_from (own a cs)).
    { intros a. apply sorted_sorted_by_from.
      now destruct (reachable_in_order cs H a) as (_ & Hs & _). }
    split; [exact Hown|].
    intros a Ha. rewrite <- (own_everything a cs Ha). apply Hown.
  - intros Hdiff a cs H. exact (tracked_sorted Hdiff a cs H).
Qed.

Lemma two_apart_reachable (allowed : PosMap -> Prop) :
  @reachable Flat.model allowed Samples.two_apart.
Proof.
  apply (@reach_recordRange Flat.model allowed
           [Samples.change 2 3 "o" "x"] [] Samples.foobar 5 6 "x"
           Samples.two_apart []); [|lia|reflexivity].
  apply (@reach_recordRange Flat.model allowed
           [] [] Samples.foobar 2 3 "x" [Samples.change 2 3 "o" "x"] []);
    [|lia|reflexivity].
  apply reach_empty.
Defined.

Lemma edit_single_range (d : Flat.Text) (from to : Z) (s : string) :
  from <= to ->
  Forall (fun st => single_range (snd st)) (steps (Samples.edit d from to s)).
Proof.
  intros H. constructor; [|constructor].
  exists from, (to - from), (Flat.size (Flat.text s)).
  split; [reflexivity|]. unfold Flat.size. lia.
Defined.

(** The run of the test [add_twice]: ["ok"] typed at 4 of ["foo"], then
    ["hi"] at 1. *)
Lemma add_twice_tracked : @tracked Flat.model "x" Samples.add_twice.
Proof.
  apply (@tracked_record Flat.model "x" [Samples.change 4 6 "" "x"]
           (Samples.edit (Flat.text "<foook>") 1 1 "hi") Samples.add_twice).
  - apply (@tracked_record Flat.model "x" []
             (Samples.edit (Flat.text "<foo>") 4 4 "ok")
             [Samples.change 4 6 "" "x"]).
    + apply tracked_empty.
    + apply edit_single_range. lia.
    + reflexivity.
  - apply edit_single_range. lia.
  - reflexivity.
Defined.

Lemma no_overlap_reachable_witness :
  @reachable Flat.model increasing Samples.two_apart
  /\ @no_overlap Flat.model Samples.two_apart
  /\ @tracked Flat.model "x" Samples.add_twice
  /\ @no_overlap Flat.model Samples.add_twice.
Proof.
  split; [apply two_apart_reachable|].
  split; [apply (proj1 (@no_overlap_reachable Flat.model));
          apply two_apart_reachable|].
  split; [apply add_twice_tracked|].
  apply (proj2 (@no_overlap_reachable Flat.model) flat_diff_within "x"%string
           Samples.add_twice add_twice_tracked).
Defined.

Lemma sorted_per_author_reachable_witness :
  @reachable Flat.model monotone Samples.two_apart
  /\ (forall a, @sorted_by_from Flat.model (own a Samples.two_apart))
  /\ @tracked Flat.model "x" Samples.add_twice
  /\ @sorted_by_from Flat.model Samples.add_twice.
Proof.
  split; [apply two_apart_reachable|].
  split; [apply (proj1 (@sorted_per_author_reachable Flat.model));
          apply two_apart_reachable|].
  split; [apply add_twice_tracked|].
  apply (proj2 (@sorted_per_author_reachable Flat.model) flat_diff_within
           "x"%string Samples.add_twice add_twice_tracked).
Defined.

(** C2 fails as it is worded: two changes of one author, recorded apart,
    touch once the change set is mapped through the deletion of what lies
    between them. *)
Lemma no_overlap_broken_by_mapChanges :
  @reachable Flat.model monotone Samples.two_touching
  /\ ~ @no_overlap Flat.model Samples.two_touching.
Proof.
  split.
  - apply (@reach_mapChanges Flat.model monotone Samples.two_apart
             (StepMap.map [(3, 2, 0)]) None Samples.two_touching).
    + apply two_apart_reachable.
    + apply single_range_monotone; lia.
    + reflexivity.
  - intros H.
    specialize (H 0%nat 1%nat (Samples.change 2 3 "o" "x")
                  (Samples.change 3 4 "a" "x")).
    simpl in H. specialize (H ltac:(discriminate) eq_refl eq_refl eq_refl).
    lia.
Qed.

(** C7 fails as it is worded: a change recorded for one author is put
    behind the changes of the other authors that start after it. *)
Lemma sorted_broken_by_second_author :
  @reachable Flat.model monotone Samples.two_authors
  /\ ~ @sorted_by_from Flat.model Samples.two_authors.
Proof.
  split.
  - apply (@reach_recordRange Flat.model monotone
             [Samples.change 4 5 "b" "y"] [] Samples.foobar 1 2 "x"%string
             Samples.two_authors []); [|lia|reflexivity].
    apply (@reach_recordRange Flat.model monotone
             [] [] Samples.foobar 4 5 "y"%string
             [Samples.change 4 5 "b" "y"] []);
      [|lia|reflexivity].
    apply reach_empty.
  - intros H.
    specialize (H 0%nat (Samples.change 4 5 "b" "y")
                  (Samples.change 1 2 "f" "x") eq_refl eq_refl).
    simpl in H. lia.
Qed.

(** ** The merge of [recordRange] *)

Section Merge.
Context {DM : DocModel}.

Lemma bind_assoc {A B C : Type} (m : res A) (f : A -> res B)
    (g : B -> res C) :
  bind (bind m f) g = bind m (fun x => bind (f x) g).
Proof. destruct m; reflexivity. Qed.

Lemma filter_touches (from to : Z) (a : Author) (cs : list TC) :
  filter (touches from to a) cs = filter (in_reach from to) (own a cs).
Proof.
  unfold own. induction cs as [|c cs IH]; [reflexivity|].
  simpl. replace (touches from to a c)
    with (by_author a c && in_reach from to c)
    by (unfold touches, in_reach; now rewrite andb_assoc).
  destruct (by_author a c); simpl; rewrite IH; reflexivity.
Qed.

Lemma starts_min_first (x from : Z) (l : list TC) :
  Forall (fun c => x <= TrackedChange.from c) l ->
  Z.min x (starts_min from l) = Z.min x from.
Proof.
  induction 1 as [|c l Hc _ IH]; simpl; [reflexivity|]. lia.
Qed.

Lemma ends_max_last (to : Z) (l : list TC) (c0 : TC) :
  StronglySorted ends_le (c0 :: l) ->
  ends_max to (c0 :: l) = Z.max (TrackedChange.to (last (c0 :: l) c0)) to.
Proof.
  revert c0. induction l as [|x l IH]; intros c0 HS; [reflexivity|].
  apply StronglySorted_inv in HS. destruct HS as [HS HF].
  change (ends_max to (c0 :: x :: l))
    with (Z.max (TrackedChange.to c0) (ends_max to (x :: l))).
  rewrite (IH x HS).
  change (last (c0 :: x :: l) c0) with (last (x :: l) c0).
  rewrite (last_default l x c0 x).
  rewrite Forall_forall in HF. specialize (HF _ (last_In l x)).
  unfold ends_le in HF. lia.
Qed.

Lemma absorb_touching (from to : Z) (a : Author) (tail : list TC) :
  Forall (fun c => by_author a c = true -> from <= TrackedChange.to c) tail ->
  StronglySorted starts_le (own a tail) ->
  ChangeTracking.absorb to a tail
  = (filter (touches from to a) tail,
     filter (fun c => negb (touches from to a c)) tail).
Proof.
  induction tail as [|next rest IH]; intros Hto HS; [reflexivity|].
  apply Forall_cons_iff in Hto. destruct Hto as [Hnext Hto].
  simpl in HS. simpl.
  destruct (by_author a next) eqn:Ea.
  - apply StronglySorted_inv in HS. destruct HS as [HS HF].
    specialize (Hnext eq_refl).
    assert (Et : touches from to a next
                 = negb (TrackedChange.from next >? to)).
    { unfold touches. rewrite Ea. simpl.
      replace (TrackedChange.to next >=? from) with true by lia.
      simpl. lia. }
    rewrite Et. unfold by_author in Ea. rewrite Ea. simpl.
    destruct (TrackedChange.from next >? to) eqn:Egt; simpl.
    + assert (Hnone : forall c, In c rest -> touches from to a c = false).
      { intros c Hc. unfold touches.
        destruct (by_author a c) eqn:Ec; [|reflexivity].
        rewrite Forall_forall in HF.
        assert (Hin : In c (own a rest)) by (apply filter_In; auto).
        specialize (HF c Hin). unfold starts_le in HF.
        replace (TrackedChange.from c <=? to) with false by lia.
        apply andb_false_r. }
      f_equal.
      * clear -Hnone. induction rest as [|c rest IH]; [reflexivity|].
        simpl. rewrite (Hnone c) by now left.
        apply IH. intros; apply Hnone; now right.
      * f_equal. clear -Hnone.
        induction rest as [|c rest IH]; [reflexivity|].
        simpl. rewrite (Hnone c) by now left. simpl. f_equal.
        apply IH. intros; apply Hnone; now right.
    + rewrite (IH Hto HS). reflexivity.
  - assert (Et : touches from to a next = false)
      by (unfold touches; now rewrite Ea).
    rewrite Et. unfold by_author in Ea. rewrite Ea. simpl.
    rewrite (IH Hto HS). reflexivity.
Qed.

Lemma recordRange_scan_merge (d : Doc) (from to : Z) (a : Author)
    (u : Updated) (cs : list TC) (c0 : TC) (rest : list TC) :
  StronglySorted starts_le (own a cs) ->
  StronglySorted ends_le (own a cs) ->
  filter (touches from to a) cs = c0 :: rest ->
  exists pre post,
    cs = pre ++ c0 :: post
    /\ filter (touches from to a) pre = []
    /\ ChangeTracking.recordRange_scan d from to a u cs
       = (slice <- merged_slice d from to c0 rest ;;
          Ret (pre ++ merged_change from to a c0 rest slice
                     :: filter (fun x => negb (touches from to a x)) post,
               u ++ [(merged_change from to a c0 rest slice,
                      if from <=? TrackedChange.from c0 then -1 else 1)])).
Proof.
  induction cs as [|change cs IH]; intros Hs He Hf; [discriminate|].
  simpl in Hf, Hs, He.
  assert (Hskip :
    touches from to a change = false ->
    negb (String.eqb (TrackedChange.author change) a)
    || (TrackedChange.to change <? from) = true ->
    StronglySorted starts_le (own a cs) ->
    StronglySorted ends_le (own a cs) ->
    exists pre post,
      change :: cs = pre ++ c0 :: post
      /\ filter (touches from to a) pre = []
      /\ ChangeTracking.recordRange_scan d from to a u (change :: cs)
         = (slice <- merged_slice d from to c0 rest ;;
            Ret (pre ++ merged_change from to a c0 rest slice
                   :: filter (fun x => negb (touches from to a x)) post,
                 u ++ [(merged_change from to a c0 rest slice,
                        if from <=? TrackedChange.from c0
                        then -1 else 1)]))).
  { intros Et Hcond Hs' He'. rewrite Et in Hf.
    destruct (IH Hs' He' Hf) as (pre & post & E1 & E2 & E3).
    exists (change :: pre), post. split; [simpl; now f_equal|].
    split; [simpl; now rewrite Et|].
    simpl. rewrite Hcond, E3, bind_assoc.
    destruct (merged_slice d from to c0 rest); reflexivity. }
  destruct (by_author a change) eqn:Ea.
  - apply StronglySorted_inv in Hs. destruct Hs as [Hs HFs].
    apply StronglySorted_inv in He. destruct He as [He HFe].
    destruct (TrackedChange.to change <? from) eqn:Elt.
    + apply Hskip; auto.
      * unfold touches. rewrite Ea. simpl.
        replace (TrackedChange.to change >=? from) with false by lia.
        reflexivity.
      * apply orb_true_r.
    + destruct (TrackedChange.from change >? to) eqn:Egt.
      * exfalso.
        assert (Et : touches from to a change = false).
        { unfold touches.
          replace (TrackedChange.from change <=? to) with false by lia.
          apply andb_false_r. }
        rewrite Et in Hf.
        assert (Hin : In c0 (filter (touches from to a) cs))
          by (rewrite Hf; now left).
        apply filter_In in Hin. destruct Hin as [Hin Hc0].
        unfold touches in Hc0.
        apply andb_true_iff in Hc0. destruct Hc0 as [Hc0 Hle].
        apply andb_true_iff in Hc0. destruct Hc0 as [Hby _].
        rewrite Forall_forall in HFs.
        assert (Hown : In c0 (own a cs)) by (apply filter_In; auto).
        specialize (HFs c0 Hown). unfold starts_le in HFs. lia.
      * assert (Et : touches from to a change = true).
        { unfold touches. rewrite Ea. simpl.
          replace (TrackedChange.to change >=? from) with true by lia.
          simpl. lia. }
        rewrite Et in Hf. inversion Hf; subst c0 rest. clear Hf.
        exists [], cs. split; [reflexivity|]. split; [reflexivity|].
        simpl. unfold by_author in Ea. rewrite Ea, Elt, Egt. simpl.
        unfold ChangeTracking.merge.
        rewrite (absorb_touching from to a cs).
        2: { apply Forall_forall. intros c Hc Hby.
             rewrite Forall_forall in HFe.
             assert (Hown : In c (own a cs)) by (apply filter_In; auto).
             specialize (HFe c Hown). unfold ends_le in HFe. lia. }
        2: assumption.
        unfold merged_slice, merged_change.
        assert (Hsorted_e :
          StronglySorted ends_le
            (change :: filter (touches from to a) cs)).
        { rewrite filter_touches. constructor.
          - now apply StronglySorted_filter.
          - apply Forall_forall. intros c Hc. apply filter_In in Hc.
            rewrite Forall_forall in HFe. now apply HFe. }
        rewrite (ends_max_last to _ change Hsorted_e).
        assert (Hmin : starts_min from (change :: filter (touches from to a) cs)
                       = Z.min (TrackedChange.from change) from).
        { simpl. apply starts_min_first. apply Forall_forall.
          intros c Hc. rewrite filter_touches in Hc. apply filter_In in Hc.
          rewrite Forall_forall in HFs. now apply HFs. }
        rewrite Hmin. apply String.eqb_eq in Ea. rewrite Ea.
        destruct (filter (touches from to a) cs) eqn:Ef; reflexivity.
  - apply Hskip; auto.
    + unfold touches. now rewrite Ea.
    + unfold by_author in Ea. now rewrite Ea.
Qed.

End Merge.


(** ** An empty span that touches nothing *)

Section EmptySpan.
Context {DM : DocModel}.

Lemma recordRange_scan_untouched (d : Doc) (from to : Z) (a : Author)
    (u : Updated) (cs : list TC) :
  Forall (fun c => touches from to a c = false) cs ->
  exists pre post,
    cs = pre ++ post
    /\ ChangeTracking.recordRange_scan d from to a u cs
       = (s <- Doc_slice d from to ;;
          Ret (pre ++ TrackedChange.new from to s a :: post, u)).
Proof.
  induction 1 as [|change cs Hc _ IH].
  - exists [], []. split; reflexivity.
  - destruct IH as (pre & post & E1 & E2). simpl.
    destruct (negb (String.eqb (TrackedChange.author change) a)
              || (TrackedChange.to change <? from)) eqn:Eskip.
    + exists (change :: pre), post. split; [simpl; now f_equal|].
      rewrite E2, bind_assoc. destruct (Doc_slice d from to); reflexivity.
    + apply orb_false_iff in Eskip. destruct Eskip as [Ea Elt].
      apply negb_false_iff in Ea.
      unfold touches, by_author in Hc. rewrite Ea in Hc. simpl in Hc.
      replace (TrackedChange.to change >=? from) with true in Hc by lia.
      simpl in Hc.
      replace (TrackedChange.from change >? to) with true by lia.
      exists [], (change :: cs). split; reflexivity.
Qed.

End EmptySpan.

(** C8, as the program has it.  [recordRange] over an empty span [[p, p)]
    that touches none of the author's changes does record a change, with
    empty deleted content.  The [mapChanges] of the step then removes it
    exactly when the map of the step leaves nothing between its end points;
    recorded into an empty set, it is gone after a step that inserts
    nothing and stays as [[p, p + n)] after a step that inserts [n]. *)
Theorem recordRange_empty_span {DM : DocModel}
    (d : Doc) (p : Z) (a : Author) (cs : list TC) (u : Updated) :
  Forall (fun c => touches p p a c = false) cs ->
  (exists pre post,
      cs = pre ++ post
      /\ ChangeTracking.recordRange d p p a (cs, u)
         = Ret (pre ++ TrackedChange.new p p Slice_empty a :: post, u))
  /\ (forall mapping,
        TrackedChange.map (TrackedChange.new p p Slice_empty a) mapping true
        = None
        <-> mapping p 1 <= mapping p (-1))
  /\ (forall d1 n,
        ChangeTracking.record [] (mkTransform d1 [(d, [(p, 0, Z.of_nat n)])]) a
        = Ret (match n with
               | O => []
               | S _ => [TrackedChange.new p (p + Z.of_nat n) Slice_empty a]
               end)).
Proof.
  intros H. split; [|split].
  - destruct (recordRange_scan_untouched d p p a u cs H)
      as (pre & post & E1 & E2).
    exists pre, post. split; [assumption|].
    unfold ChangeTracking.recordRange. simpl.
    rewrite E2, Doc_slice_same. reflexivity.
  - intros mapping.
    rewrite map_None_iff. simpl. rewrite Slice_empty_size. lia.
  - intros d1 n. apply record_insert_fresh.
Qed.

Lemma recordRange_empty_span_witness :
  Forall (fun c => @touches Flat.model 3 3 "x" c = false)
    [Samples.change 0 1 "<" "x"; Samples.change 5 6 "a" "x"]
  /\ @ChangeTracking.recordRange Flat.model Samples.foobar 3 3 "x"%string
       ([Samples.change 0 1 "<" "x"; Samples.change 5 6 "a" "x"], [])
     = Ret ([Samples.change 0 1 "<" "x"; Samples.change 3 3 "" "x";
             Samples.change 5 6 "a" "x"], [])
  /\ (forall mapping,
        @TrackedChange.map Flat.model (Samples.change 3 3 "" "x") mapping true
        = None
        <-> mapping 3 1 <= mapping 3 (-1)).
Proof.
  assert (H : Forall (fun c => @touches Flat.model 3 3 "x" c = false)
                [Samples.change 0 1 "<" "x"; Samples.change 5 6 "a" "x"])
    by (repeat constructor).
  split; [exact H|]. split; [reflexivity|].
  exact (proj1 (proj2 (@recordRange_empty_span Flat.model Samples.foobar 3
                         "x"%string _ [] H))).
Defined.

(** C8 fails as it is worded: the empty span at 2 of ["<foo>"], touching
    nothing, is recorded, and after the step that inserts two characters
    there the change set holds the annotation [[2, 4)]. *)
Lemma empty_span_is_recorded :
  @Doc_slice Flat.model (Flat.text "<foo>") 2 2 = Ret (Flat.text "")
  /\ @ChangeTracking.recordRange Flat.model (Flat.text "<foo>") 2 2
       "x"%string ([], [])
     = Ret ([Samples.change 2 2 "" "x"], [])
  /\ @ChangeTracking.record Flat.model []
       (Samples.edit (Flat.text "<foo>") 2 2 "hi") "x"%string
     = Ret [Samples.change 2 4 "" "x"].
Proof. repeat split. Qed.

Lemma recordRange_other_authors_untouched_witness :
  @ChangeTracking.recordRange Flat.model Samples.foobar 3 4 "x"%string
    (Samples.mixed, [])
  = Ret (Samples.mixed_merged, [(Samples.change 2 5 "o" "x", 1)])
  /\ filter (other_author "x") Samples.mixed_merged
     = filter (other_author "x") Samples.mixed
  /\ @ChangeTracking.recordRange Flat.model Samples.foobar 3 4 "x"%string
       (filter (by_author "x") Samples.mixed, [])
     = Ret (filter (by_author "x") Samples.mixed_merged,
            [(Samples.change 2 5 "o" "x", 1)]).
Proof.
  split; [reflexivity|].
  apply (@recordRange_other_authors_untouched Flat.model Samples.foobar 3 4
           "x"%string Samples.mixed [] Samples.mixed_merged
           [(Samples.change 2 5 "o" "x", 1)]).
  reflexivity.
Defined.

Lemma mixed_in_order : @in_order Flat.model "x" Samples.mixed.
Proof.
  unfold in_order. simpl.
  repeat split; repeat constructor;
    unfold well_formed, starts_le, ends_le; simpl; lia.
Defined.


(** ** Reverting a minimised change *)


(** ** The runs of [test.js] on one paragraph

    The outcome is the text and the change set. *)

Example test_simple_add :
  Samples.play (Flat.text "<foo>") [Samples.ins 2 "hi"]
  = Ret (Flat.text "<fhioo>", [Samples.change 2 4 "" "x"]).
Proof. reflexivity. Qed.

Example test_add_twice :
  Samples.play (Flat.text "<foo>") [Samples.ins 4 "ok"; Samples.ins 1 "hi"]
  = Ret (Flat.text "<hifoook>", Samples.add_twice).
Proof. reflexivity. Qed.

Example test_add_adjacent :
  Samples.play (Flat.text "<foo>")
    [Samples.ins 2 "x"; Samples.ins 3 "x"; Samples.ins 2 "x"]
  = Ret (Flat.text "<fxxxoo>", [Samples.change 2 5 "" "x"]).
Proof. reflexivity. Qed.

Example test_simple_del :
  Samples.play (Flat.text "<foobar>") [Samples.del 2 4]
  = Ret (Flat.text "<fbar>", [Samples.change 2 2 "oo" "x"]).
Proof. reflexivity. Qed.

Example test_add_del :
  Samples.play (Flat.text "<foobar>") [Samples.ins 4 "aa"; Samples.del 2 4]
  = Ret (Flat.text "<faabar>", [Samples.change 2 4 "oo" "x"]).
Proof. reflexivity. Qed.

Example test_del_add :
  Samples.play (Flat.text "<foobar>") [Samples.del 2 4; Samples.ins 2 "aa"]
  = Ret (Flat.text "<faabar>", [Samples.change 2 4 "oo" "x"]).
Proof. reflexivity. Qed.

Example test_add_del_cancel :
  Samples.play (Flat.text "<foo>") [Samples.ins 2 "ab"; Samples.del 2 4]
  = Ret (Flat.text "<foo>", []).
Proof. reflexivity. Qed.

Example test_del_add_cancel :
  Samples.play (Flat.text "<foo>") [Samples.del 2 4; Samples.ins 2 "oo"]
  = Ret (Flat.text "<foo>", []).
Proof. reflexivity. Qed.

Example test_add_del_cancel_separate :
  Samples.play (Flat.text "<foo>")
    [Samples.ins 2 "a"; Samples.ins 3 "b"; Samples.del 3 4; Samples.del 2 3]
  = Ret (Flat.text "<foo>", []).
Proof. reflexivity. Qed.

Example test_del_add_cancel_separate :
  Samples.play (Flat.text "<foo>")
    [Samples.del 3 4; Samples.del 2 3; Samples.ins 2 "o"; Samples.ins 3 "o"]
  = Ret (Flat.text "<foo>", []).
Proof. reflexivity. Qed.

Example test_del_add_cancel_separate_matching_context :
  Samples.play (Flat.text "<fababab>")
    [Samples.del 4 5; Samples.del 3 4; Samples.del 2 3;
     Samples.ins 2 "a"; Samples.ins 3 "b"; Samples.ins 4 "a"]
  = Ret (Flat.text "<fababab>", []).
Proof. reflexivity. Qed.

Example test_insert_multiple_after_identical :
  Samples.play (Flat.text "<abc>") [Samples.ins 2 "a"; Samples.ins 3 "a"]
  = Ret (Flat.text "<aaabc>", [Samples.change 2 4 "" "x"]).
Proof. reflexivity. Qed.

(** Text directly under the top node: ["a"] is replaced by ["x"] at the
    start of ["abc"], then ["y"] is typed in front.  The first difference
    is at 0 and the tracker is left with nothing, on a text that is not
    the first one. *)
Example change_at_start_is_lost :
  Samples.play (Flat.text "abc") [(0, 1, "x"%string); Samples.ins 0 "y"]
  = Ret (Flat.text "yxbc", []).
Proof. reflexivity. Qed.

(** * Further properties of the program *)

(** ** The end side of the minimiser *)



(** ** What the minimiser and the mapper return *)

Section Results.
Context {DM : DocModel}.

Lemma minimizeChange_shape (change : TC) (d : Doc) (side : Z) (c' : TC) :
  minimizeChange change d side = Ret (Some c') ->
  TrackedChange.author c' = TrackedChange.author change
  /\ (c' = change
      \/ (side = -1
          /\ TrackedChange.to c' = TrackedChange.to change
          /\ TrackedChange.from c' <> TrackedChange.from change
          /\ TrackedChange.from c' < TrackedChange.to c')
      \/ (side <> -1
          /\ TrackedChange.from c' = TrackedChange.from change
          /\ TrackedChange.to c' <> TrackedChange.to change
          /\ TrackedChange.from c' < TrackedChange.to c')).
Proof.
  intros H. unfold minimizeChange in H.
  apply bind_inv in H. destruct H as (cx & _ & H).
  destruct (Z.eqb_spec side (-1)) as [Hs|Hs].
  - unfold minimize_start in H.
    apply bind_inv in H. destruct H as (ds & _ & H).
    destruct ds as [p|]; [|discriminate].
    destruct (p =? 0); [discriminate|].
    destruct ((p =? TrackedChange.from change)
              || (p >=? TrackedChange.to change)) eqn:E.
    + inversion H; subst. split; [reflexivity | now left].
    + apply orb_false_iff in E. destruct E as [E1 E2].
      apply bind_inv in H. destruct H as (s & _ & H).
      inversion H; subst c'; simpl. split; [reflexivity|].
      right. left. repeat split; [assumption | lia | lia].
  - unfold minimize_end in H.
    apply bind_inv in H. destruct H as (de & _ & H).
    destruct de as [[a b]|]; [|discriminate].
    destruct ((a =? TrackedChange.to change)
              || (a <=? TrackedChange.from change)
              || (b <=? TrackedChange.from change)) eqn:E.
    + inversion H; subst. split; [reflexivity | now left].
    + apply orb_false_iff in E. destruct E as [E _].
      apply orb_false_iff in E. destruct E as [E1 E2].
      apply bind_inv in H. destruct H as (s & _ & H).
      inversion H; subst c'; simpl. split; [reflexivity|].
      right. right. repeat split; [assumption | lia | lia].
Qed.

Lemma mapChange_author (m : PosMap) (author : option Author)
    (updated : option Updated) (docAfter : option Doc) (c c'' : TC) :
  mapChange m author updated docAfter c = Ret (Some c'') ->
  TrackedChange.author c'' = TrackedChange.author c.
Proof.
  unfold mapChange. intros H.
  destruct (TrackedChange.map c m _) as [c'|] eqn:Em; [|discriminate].
  apply map_Some in Em. destruct Em as (_ & _ & Ea & _).
  destruct updated as [upd|]; [|inversion H; now subst].
  destruct (updated_side upd c); [|inversion H; now subst].
  destruct docAfter as [d|]; [|discriminate].
  apply minimizeChange_shape in H. destruct H as [H _]. congruence.
Qed.

Lemma mapChanges_length (m : PosMap) (author : option Author)
    (updated : option Updated) (docAfter : option Doc) (cs cs' : list TC) :
  mapChanges cs m author updated docAfter = Ret cs' ->
  (length cs' <= length cs)%nat.
Proof.
  revert cs'. induction cs as [|c cs IH]; intros cs' H.
  - inversion H; subst. simpl. lia.
  - apply mapChanges_inv in H. destruct H as (o & rest & _ & Hrest & ->).
    specialize (IH rest Hrest). destruct o; simpl; lia.
Qed.

Lemma mapChanges_app_eq (m : PosMap) (author : option Author)
    (updated : option Updated) (docAfter : option Doc) (cs1 cs2 : list TC) :
  mapChanges (cs1 ++ cs2) m author updated docAfter
  = (r1 <- mapChanges cs1 m author updated docAfter ;;
     r2 <- mapChanges cs2 m author updated docAfter ;;
     Ret (r1 ++ r2)).
Proof.
  induction cs1 as [|c cs1 IH]; simpl.
  - destruct (mapChanges cs2 m author updated docAfter); reflexivity.
  - destruct (mapChange m author updated docAfter c) as [o|]; simpl;
      [|reflexivity].
    rewrite IH.
    destruct (mapChanges cs1 m author updated docAfter) as [r1|]; simpl;
      [|reflexivity].
    destruct (mapChanges cs2 m author updated docAfter) as [r2|]; simpl;
      [|reflexivity].
    destruct o; reflexivity.
Qed.

End Results.

(** X2. Whatever the document library answers, a change that comes back
    from [minimizeChange] has the author it had and is either the change
    itself or a change with a non-empty range that keeps one end: the end
    with side -1, the start otherwise. *)
Theorem minimizeChange_keeps_author_and_end {DM : DocModel}
    (change : TC) (d : Doc) (side : Z) (c' : TC) :
  minimizeChange change d side = Ret (Some c') ->
  TrackedChange.author c' = TrackedChange.author change
  /\ (c' = change
      \/ (side = -1
          /\ TrackedChange.to c' = TrackedChange.to change
          /\ TrackedChange.from c' <> TrackedChange.from change
          /\ TrackedChange.from c' < TrackedChange.to c')
      \/ (side <> -1
          /\ TrackedChange.from c' = TrackedChange.from change
          /\ TrackedChange.to c' <> TrackedChange.to change
          /\ TrackedChange.from c' < TrackedChange.to c')).
Proof. apply minimizeChange_shape. Qed.

Lemma minimizeChange_keeps_author_and_end_witness :
  @minimizeChange Flat.model (Samples.change 2 4 "zy" "x")
    (Flat.text "<fxyoo>") 1
  = Ret (Some (Samples.change 2 3 "z" "x"))
  /\ TrackedChange.author (Samples.change 2 3 "z" "x")
     = TrackedChange.author (Samples.change 2 4 "zy" "x")
  /\ TrackedChange.from (Samples.change 2 3 "z" "x")
     = TrackedChange.from (Samples.change 2 4 "zy" "x").
Proof.
  split; [reflexivity|].
  destruct (@minimizeChange_keeps_author_and_end Flat.model
              (Samples.change 2 4 "zy" "x") (Flat.text "<fxyoo>") 1
              (Samples.change 2 3 "z" "x") eq_refl) as [Ha _].
  split; [exact Ha | reflexivity].
Defined.

(** X3. [mapChanges] never adds a change: the result is no longer than
    the change set, and each change in it is what one turn of the loop
    made of a change of the set, with that change's author. *)
Theorem mapChanges_never_adds {DM : DocModel}
    (m : PosMap) (author : option Author) (updated : option Updated)
    (docAfter : option Doc) (cs cs' : list TC) :
  mapChanges cs m author updated docAfter = Ret cs' ->
  (length cs' <= length cs)%nat
  /\ (forall c'', In c'' cs' ->
        exists c, In c cs
                  /\ mapChange m author updated docAfter c = Ret (Some c'')
                  /\ TrackedChange.author c'' = TrackedChange.author c).
Proof.
  intros H. split; [exact (mapChanges_length _ _ _ _ _ _ H)|].
  intros c'' Hin.
  destruct (mapChanges_origin _ _ _ _ _ _ _ H Hin) as (c & Hc & Hm).
  exists c. repeat split; try assumption.
  exact (mapChange_author _ _ _ _ _ _ Hm).
Qed.

Lemma mapChanges_never_adds_witness :
  @mapChanges Flat.model Samples.two_apart (StepMap.map [(3, 2, 0)])
    None None None
  = Ret Samples.two_touching
  /\ (length Samples.two_touching <= length Samples.two_apart)%nat.
Proof.
  split; [reflexivity|].
  exact (proj1 (@mapChanges_never_adds Flat.model (StepMap.map [(3, 2, 0)])
                  None None None Samples.two_apart Samples.two_touching
                  eq_refl)).
Defined.

(** X4. [mapChanges] takes the changes one by one: the result for a
    change set in two parts is the result for the first part followed by
    the result for the second, and it throws when either does. *)
Theorem mapChanges_app {DM : DocModel}
    (m : PosMap) (author : option Author) (updated : option Updated)
    (docAfter : option Doc) (cs1 cs2 : list TC) :
  mapChanges (cs1 ++ cs2) m author updated docAfter
  = (r1 <- mapChanges cs1 m author updated docAfter ;;
     r2 <- mapChanges cs2 m author updated docAfter ;;
     Ret (r1 ++ r2)).
Proof. apply mapChanges_app_eq. Qed.

(** ** [record], step by step *)

Section RecordSteps.
Context {DM : DocModel}.

Lemma record_steps_app (s1 : list (Doc * StepMap.t)) (d2 : Doc)
    (m2 : StepMap.t) (s2 : list (Doc * StepMap.t)) (final : Doc)
    (a : Author) (cs : list TC) :
  ChangeTracking.record_steps (s1 ++ (d2, m2) :: s2) final a cs
  = (cs1 <- ChangeTracking.record_steps s1 d2 a cs ;;
     ChangeTracking.record_steps ((d2, m2) :: s2) final a cs1).
Proof.
  revert cs. induction s1 as [|[d m] s1 IH]; intros cs; [reflexivity|].
  cbn [app ChangeTracking.record_steps].
  destruct (ChangeTracking.record_ranges d m a (cs, [])) as [[cs0 upd]|];
    [|reflexivity].
  cbn [bind].
  assert (Hafter :
    match s1 ++ (d2, m2) :: s2 with (d', _) :: _ => d' | [] => final end
    = match s1 with (d', _) :: _ => d' | [] => d2 end).
  { destruct s1 as [|[d' m'] s1]; reflexivity. }
  rewrite Hafter.
  destruct (mapChanges cs0 (StepMap.map m) (Some a) (Some upd) _)
    as [cs'|]; [|reflexivity].
  cbn [bind]. apply IH.
Qed.

Lemma absorb_length (to : Z) (a : Author) (tail : list TC) :
  (length (snd (ChangeTracking.absorb to a tail)) <= length tail)%nat.
Proof.
  induction tail as [|next rest IH]; simpl; [lia|].
  destruct (negb _).
  - destruct (ChangeTracking.absorb to a rest). simpl in *. lia.
  - destruct (_ >? _); simpl; [lia|].
    destruct (ChangeTracking.absorb to a rest). simpl in *. lia.
Qed.

Lemma recordRange_scan_length (d : Doc) (from to : Z) (a : Author)
    (u : Updated) (cs cs' : list TC) (u' : Updated) :
  ChangeTracking.recordRange_scan d from to a u cs = Ret (cs', u') ->
  (1 <= length cs' <= S (length cs))%nat
  /\ (length u <= length u' <= S (length u))%nat.
Proof.
  revert cs' u'. induction cs as [|change rest IH]; intros cs' u' H.
  - simpl in H. apply bind_inv in H. destruct H as (s & _ & H).
    inversion H; subst. simpl. lia.
  - simpl in H. destruct (negb _ || _).
    + apply bind_inv in H. destruct H as ([cs1 u1] & H1 & H).
      inversion H; subst. specialize (IH _ _ H1). simpl. lia.
    + destruct (_ >? _).
      * apply bind_inv in H. destruct H as (s & _ & H).
        inversion H; subst. simpl. lia.
      * apply merge_inv in H. destruct H as (c & -> & _ & _ & _ & ->).
        pose proof (absorb_length to a rest). rewrite length_app.
        simpl. lia.
Qed.

Lemma record_ranges_length (d : Doc) (ranges : StepMap.t) (a : Author)
    (st st' : list TC * Updated) :
  ChangeTracking.record_ranges d ranges a st = Ret st' ->
  (length (fst st') <= length (fst st) + length ranges)%nat.
Proof.
  revert st. induction ranges as [|[[s o] n] ranges IH]; intros st H.
  - inversion H; subst. lia.
  - simpl in H. apply bind_inv in H. destruct H as ([cs1 u1] & H1 & H).
    specialize (IH _ H). unfold ChangeTracking.recordRange in H1.
    apply recordRange_scan_length in H1. simpl in *. lia.
Qed.

Lemma record_steps_length (sts : list (Doc * StepMap.t)) (final : Doc)
    (a : Author) (cs cs' : list TC) :
  ChangeTracking.record_steps sts final a cs = Ret cs' ->
  (length cs'
   <= length cs + list_sum (List.map (fun st => length (snd st)) sts))%nat.
Proof.
  revert cs. induction sts as [|[d m] sts IH]; intros cs H.
  - inversion H; subst. simpl. lia.
  - simpl in H. apply bind_inv in H. destruct H as ([cs1 upd] & H1 & H).
    apply bind_inv in H. destruct H as (cs2 & H2 & H).
    apply record_ranges_length in H1. apply mapChanges_length in H2.
    specialize (IH _ H). simpl in *. lia.
Qed.

End RecordSteps.

(** X5. Recording a transform of several steps is recording its steps in
    turn: the steps up to a step first, with the document before that
    step as the last document, then the rest from what that gave. *)
Theorem record_splits_by_steps {DM : DocModel}
    (s1 : list (Doc * StepMap.t)) (d2 : Doc) (m2 : StepMap.t)
    (s2 : list (Doc * StepMap.t)) (final : Doc) (a : Author)
    (cs : list TC) :
  ChangeTracking.record cs (mkTransform final (s1 ++ (d2, m2) :: s2)) a
  = (cs1 <- ChangeTracking.record cs (mkTransform d2 s1) a ;;
     ChangeTracking.record cs1 (mkTransform final ((d2, m2) :: s2)) a).
Proof. apply record_steps_app. Qed.

(** X6. [record] adds at most one change for each replaced range of the
    transform: the change set grows by no more than the number of ranges
    of its step maps. *)
Theorem record_adds_one_per_range {DM : DocModel}
    (cs : list TC) (tr : Transform) (a : Author) (cs' : list TC) :
  ChangeTracking.record cs tr a = Ret cs' ->
  (length cs'
   <= length cs
      + list_sum (List.map (fun st => length (snd st)) (steps tr)))%nat.
Proof. apply record_steps_length. Qed.

Lemma record_adds_one_per_range_witness :
  @ChangeTracking.record Flat.model [Samples.change 4 6 "" "x"]
    (Samples.edit (Flat.text "<foook>") 1 1 "hi") "x"
  = Ret Samples.add_twice
  /\ (length Samples.add_twice <= 1 + 1)%nat.
Proof.
  split; [reflexivity|].
  exact (@record_adds_one_per_range Flat.model [Samples.change 4 6 "" "x"]
           (Samples.edit (Flat.text "<foook>") 1 1 "hi") "x"
           Samples.add_twice eq_refl).
Defined.

(** ** [recordRange]: a new change, and a span inside a change *)

Section RecordRangeCases.
Context {DM : DocModel}.

Lemma recordRange_scan_place (d : Doc) (from to : Z) (a : Author)
    (u : Updated) (cs : list TC) :
  Forall (fun c => touches from to a c = false) cs ->
  exists pre post,
    cs = pre ++ post
    /\ Forall (fun c => by_author a c = true -> TrackedChange.to c < from) pre
    /\ (forall q, hd_error post = Some q ->
                  by_author a q = true /\ to < TrackedChange.from q)
    /\ ChangeTracking.recordRange_scan d from to a u cs
       = (s <- Doc_slice d from to ;;
          Ret (pre ++ TrackedChange.new from to s a :: post, u)).
Proof.
  induction 1 as [|change cs Hc _ IH].
  - exists [], []. split; [reflexivity|]. split; [constructor|].
    split; [discriminate | reflexivity].
  - destruct IH as (pre & post & E1 & E2 & E3 & E4). simpl.
    destruct (negb (String.eqb (TrackedChange.author change) a)
              || (TrackedChange.to change <? from)) eqn:Eskip.
    + exists (change :: pre), post. split; [simpl; now f_equal|].
      split; [|split; [assumption|]].
      * constructor; [|assumption]. intros Hby.
        unfold by_author in Hby. rewrite Hby in Eskip. simpl in Eskip. lia.
      * rewrite E4, bind_assoc. destruct (Doc_slice d from to); reflexivity.
    + apply orb_false_iff in Eskip. destruct Eskip as [Ea Elt].
      apply negb_false_iff in Ea.
      unfold touches, by_author in Hc. rewrite Ea in Hc. simpl in Hc.
      replace (TrackedChange.to change >=? from) with true in Hc by lia.
      simpl in Hc.
      replace (TrackedChange.from change >? to) with true by lia.
      exists [], (change :: cs). split; [reflexivity|].
      split; [constructor|]. split; [|reflexivity].
      intros q Hq. inversion Hq; subst q. split; [exact Ea | lia].
Qed.

(** After [recordRange], one change of the author meets the span, and it
    covers it. *)
Lemma recordRange_scan_cover (d : Doc) (from to : Z) (a : Author)
    (u : Updated) (cs cs' : list TC) (u' : Updated) :
  from <= to -> in_order a cs ->
  ChangeTracking.recordRange_scan d from to a u cs = Ret (cs', u') ->
  exists c,
    filter (touches from to a) cs' = [c]
    /\ TrackedChange.from c <= from /\ to <= TrackedChange.to c.
Proof.
  intros Hft (Hwf & Hs & He) H.
  apply recordRange_scan_frame in H. destruct H as [_ H].
  destruct (recordRange_scan_shape _ _ _ _ _ _ _ _ (own_all a cs) H)
    as (pre & mid & post & c & E1 & E2 & Fpre & Fmid & Fpost & Ea & Ef & Et).
  rewrite E1 in Hwf, Hs.
  rewrite !Forall_app in Hwf. destruct Hwf as (_ & _ & Wpost).
  destruct (StronglySorted_app_inv _ _ _ Hs) as (_ & Hs2 & _).
  destruct (StronglySorted_app_inv _ _ _ Hs2) as (_ & Hspost & _).
  assert (Hbehind : forall q, In q post -> to < TrackedChange.from q).
  { apply (post_behind starts_le); auto. }
  assert (Hfc : TrackedChange.from c <= from) by (rewrite Ef; destruct mid; lia).
  assert (Htc : to <= TrackedChange.to c) by (rewrite Et; destruct mid; lia).
  exists c. split; [|split; assumption].
  rewrite filter_touches. unfold own. rewrite E2, filter_app. simpl.
  assert (Hpre : filter (in_reach from to) pre = []).
  { clear -Fpre. induction Fpre as [|p pre Hp _ IH]; [reflexivity|].
    simpl. unfold in_reach at 1.
    replace (TrackedChange.to p >=? from) with false by lia. exact IH. }
  assert (Hpost : filter (in_reach from to) post = []).
  { clear -Hbehind. induction post as [|q post IH]; [reflexivity|].
    simpl. unfold in_reach at 1.
    pose proof (Hbehind q (or_introl eq_refl)).
    replace (TrackedChange.from q <=? to) with false by lia.
    rewrite andb_false_r. apply IH. intros; apply Hbehind; now right. }
  rewrite Hpre, Hpost. unfold in_reach.
  replace (TrackedChange.to c >=? from) with true by lia.
  replace (TrackedChange.from c <=? to) with true by lia.
  reflexivity.
Qed.

Lemma filter_none_all (f : TC -> bool) (l : list TC) :
  filter f l = [] -> filter (fun x => negb (f x)) l = l.
Proof.
  induction l as [|x l IH]; [reflexivity|]. simpl.
  destruct (f x); [discriminate|]. intros H. simpl. f_equal. now apply IH.
Qed.

(** A span inside the one change of the author that meets it. *)
Lemma recordRange_scan_inside (d : Doc) (from to : Z) (a : Author)
    (u : Updated) (cs : list TC) (c0 : TC) :
  in_order a cs ->
  filter (touches from to a) cs = [c0] ->
  TrackedChange.from c0 <= from -> to <= TrackedChange.to c0 ->
  ChangeTracking.recordRange_scan d from to a u cs
  = Ret (cs, u ++ [(c0, if from <=? TrackedChange.from c0 then -1 else 1)]).
Proof.
  intros (_ & Hs & He) Hf Hfrom Hto.
  destruct (recordRange_scan_merge d from to a u cs c0 [] Hs He Hf)
    as (pre & post & E1 & E2 & E3).
  rewrite E3. unfold merged_slice, merged_change. simpl.
  replace (from <? TrackedChange.from c0) with false by lia.
  replace (to >? TrackedChange.to c0) with false by lia.
  simpl.
  assert (Hin : In c0 (filter (touches from to a) cs))
    by (rewrite Hf; now left).
  apply filter_In in Hin. destruct Hin as [_ Ht]. pose proof Ht as Htc0.
  unfold touches in Ht. apply andb_true_iff in Ht. destruct Ht as [Ht _].
  apply andb_true_iff in Ht. destruct Ht as [Ha _].
  apply String.eqb_eq in Ha.
  assert (Ec : TrackedChange.new (Z.min (TrackedChange.from c0) from)
                 (Z.max (TrackedChange.to c0) to) (TrackedChange.deleted c0) a
               = c0).
  { rewrite Z.min_l, Z.max_l by lia. rewrite <- Ha. now destruct c0. }
  rewrite Ec.
  assert (Hpost : filter (touches from to a) post = []).
  { rewrite E1, filter_app, E2 in Hf. simpl in Hf. rewrite Htc0 in Hf.
    now inversion Hf. }
  rewrite (filter_none_all _ _ Hpost), <- E1. reflexivity.
Qed.

End RecordRangeCases.

(** X7. When no change of the author meets or touches [[from, to]],
    [recordRange] puts one new change [from, to] with [doc.slice(from, to)]
    as deleted content into the set, in front of the author's first
    change that starts behind [to] (at the end when there is none) and
    behind the author's changes that end before [from]; it marks nothing
    as updated, keeps every other change in place, and throws exactly
    when the slice does. *)
Theorem recordRange_creates {DM : DocModel}
    (d : Doc) (from to : Z) (a : Author) (cs : list TC) (u : Updated) :
  Forall (fun c => touches from to a c = false) cs ->
  exists pre post,
    cs = pre ++ post
    /\ Forall (fun c => by_author a c = true -> TrackedChange.to c < from) pre
    /\ (forall q, hd_error post = Some q ->
                  by_author a q = true /\ to < TrackedChange.from q)
    /\ ChangeTracking.recordRange d from to a (cs, u)
       = (s <- Doc_slice d from to ;;
          Ret (pre ++ TrackedChange.new from to s a :: post, u)).
Proof. intros H. exact (recordRange_scan_place d from to a u cs H). Qed.

Lemma recordRange_creates_witness :
  Forall (fun c => @touches Flat.model 2 4 "x" c = false)
    [Samples.change 0 1 "<" "x"; Samples.change 3 4 "o" "y";
     Samples.change 6 7 "r" "x"]
  /\ @ChangeTracking.recordRange Flat.model Samples.foobar 2 4 "x"
       ([Samples.change 0 1 "<" "x"; Samples.change 3 4 "o" "y";
         Samples.change 6 7 "r" "x"], [])
     = Ret ([Samples.change 0 1 "<" "x"; Samples.change 3 4 "o" "y";
             Samples.change 2 4 "oo" "x"; Samples.change 6 7 "r" "x"], [])
  /\ exists pre post,
       [Samples.change 0 1 "<" "x"; Samples.change 3 4 "o" "y";
        Samples.change 6 7 "r" "x"] = pre ++ post
       /\ Forall (fun c => by_author "x" c = true
                           -> TrackedChange.to c < 2) pre
       /\ (forall q, hd_error post = Some q ->
                     by_author "x" q = true /\ 4 < TrackedChange.from q)
       /\ @ChangeTracking.recordRange Flat.model Samples.foobar 2 4 "x"
            ([Samples.change 0 1 "<" "x"; Samples.change 3 4 "o" "y";
              Samples.change 6 7 "r" "x"], [])
          = (s <- @Doc_slice Flat.model Samples.foobar 2 4 ;;
             Ret (pre ++ @TrackedChange.new Flat.model 2 4 s "x" :: post, [])).
Proof.
  assert (H : Forall (fun c => @touches Flat.model 2 4 "x" c = false)
                [Samples.change 0 1 "<" "x"; Samples.change 3 4 "o" "y";
                 Samples.change 6 7 "r" "x"])
    by (repeat constructor).
  split; [exact H|]. split; [reflexivity|].
  exact (@recordRange_creates Flat.model Samples.foobar 2 4 "x" _ [] H).
Defined.

(** X8. After [recordRange] over [[from, to]] with [from <= to], on a
    change set whose changes of the author are in the order of their
    ranges, exactly one change of the author meets or touches the span,
    and it covers the span. *)
Theorem recordRange_leaves_one_cover {DM : DocModel}
    (d : Doc) (from to : Z) (a : Author) (cs : list TC) (u : Updated)
    (cs' : list TC) (u' : Updated) :
  from <= to -> in_order a cs ->
  ChangeTracking.recordRange d from to a (cs, u) = Ret (cs', u') ->
  exists c,
    filter (touches from to a) cs' = [c]
    /\ TrackedChange.from c <= from /\ to <= TrackedChange.to c.
Proof.
  intros Hft Hord H.
  exact (recordRange_scan_cover d from to a u cs cs' u' Hft Hord H).
Qed.

Lemma recordRange_leaves_one_cover_witness :
  3 <= 4
  /\ @in_order Flat.model "x" Samples.mixed
  /\ @ChangeTracking.recordRange Flat.model Samples.foobar 3 4 "x"
       (Samples.mixed, [])
     = Ret (Samples.mixed_merged, [(Samples.change 2 5 "o" "x", 1)])
  /\ exists c,
       filter (@touches Flat.model 3 4 "x") Samples.mixed_merged = [c]
       /\ TrackedChange.from c <= 3 /\ 4 <= TrackedChange.to c.
Proof.
  split; [lia|]. split; [exact mixed_in_order|]. split; [reflexivity|].
  apply (@recordRange_leaves_one_cover Flat.model Samples.foobar 3 4 "x"
           Samples.mixed [] Samples.mixed_merged
           [(Samples.change 2 5 "o" "x", 1)]);
    [lia | exact mixed_in_order | reflexivity].
Defined.

(** X9. A span inside the one change of the author that meets it leaves
    the change set as it is, whatever the document: [recordRange] reads
    neither the document nor the deleted content, cannot throw, and only
    marks that change as updated, with side -1 when the span starts at the
    start of the change and 1 otherwise. *)
Theorem recordRange_inside_keeps_set {DM : DocModel}
    (d : Doc) (from to : Z) (a : Author) (cs : list TC) (u : Updated)
    (c0 : TC) :
  in_order a cs ->
  filter (touches from to a) cs = [c0] ->
  TrackedChange.from c0 <= from -> to <= TrackedChange.to c0 ->
  ChangeTracking.recordRange d from to a (cs, u)
  = Ret (cs, u ++ [(c0, if from <=? TrackedChange.from c0 then -1 else 1)]).
Proof.
  intros Hord Hf H1 H2.
  exact (recordRange_scan_inside d from to a u cs c0 Hord Hf H1 H2).
Qed.

Lemma mixed_merged_in_order : @in_order Flat.model "x" Samples.mixed_merged.
Proof.
  unfold in_order. simpl.
  repeat split; repeat constructor;
    unfold well_formed, starts_le, ends_le; simpl; lia.
Defined.

Lemma recordRange_inside_keeps_set_witness :
  @in_order Flat.model "x" Samples.mixed_merged
  /\ filter (@touches Flat.model 3 4 "x") Samples.mixed_merged
     = [Samples.change 2 5 "o" "x"]
  /\ @ChangeTracking.recordRange Flat.model (Flat.text "") 3 4 "x"
       (Samples.mixed_merged, [])
     = Ret (Samples.mixed_merged, [(Samples.change 2 5 "o" "x", 1)]).
Proof.
  split; [exact mixed_merged_in_order|]. split; [reflexivity|].
  apply (@recordRange_inside_keeps_set Flat.model (Flat.text "") 3 4 "x"
           Samples.mixed_merged [] (Samples.change 2 5 "o" "x")
           mixed_merged_in_order eq_refl); simpl; lia.
Defined.

(** X10. Recording a span a second time changes nothing in the change
    set: after [recordRange] over [[from, to]], a further [recordRange]
    over the same span for the same author, on any document, returns the
    same set and only marks the covering change as updated once more. *)
Theorem recordRange_twice {DM : DocModel}
    (d d' : Doc) (from to : Z) (a : Author) (cs : list TC) (u : Updated)
    (cs1 : list TC) (u1 : Updated) :
  from <= to -> in_order a cs ->
  ChangeTracking.recordRange d from to a (cs, u) = Ret (cs1, u1) ->
  exists c side,
    ChangeTracking.recordRange d' from to a (cs1, u1)
    = Ret (cs1, u1 ++ [(c, side)]).
Proof.
  intros Hft Hord H.
  destruct (recordRange_scan_cover d from to a u cs cs1 u1 Hft Hord H)
    as (c & Hf & H1 & H2).
  pose proof (recordRange_in_order _ _ _ _ _ _ _ _ Hft H a Hord) as Hord1.
  exists c, (if from <=? TrackedChange.from c then -1 else 1).
  exact (recordRange_scan_inside d' from to a u1 cs1 c Hord1 Hf H1 H2).
Qed.

Lemma recordRange_twice_witness :
  3 <= 4
  /\ @in_order Flat.model "x" Samples.mixed
  /\ @ChangeTracking.recordRange Flat.model Samples.foobar 3 4 "x"
       (Samples.mixed, [])
     = Ret (Samples.mixed_merged, [(Samples.change 2 5 "o" "x", 1)])
  /\ exists c side,
       @ChangeTracking.recordRange Flat.model (Flat.text "") 3 4 "x"
         (Samples.mixed_merged, [(Samples.change 2 5 "o" "x", 1)])
       = Ret (Samples.mixed_merged,
              [(Samples.change 2 5 "o" "x", 1)] ++ [(c, side)]).
Proof.
  split; [lia|]. split; [exact mixed_in_order|]. split; [reflexivity|].
  apply (@recordRange_twice Flat.model Samples.foobar (Flat.text "") 3 4 "x"
           Samples.mixed [] Samples.mixed_merged
           [(Samples.change 2 5 "o" "x", 1)]);
    [lia | exact mixed_in_order | reflexivity].
Defined.

(** ** Forgetting a change *)

Section Forget.
Context {DM : DocModel}.

Lemma eqb_eq (c1 c2 : TC) : TrackedChange.eqb c1 c2 = true <-> c1 = c2.
Proof.
  unfold TrackedChange.eqb.
  destruct (TrackedChange.eq_dec c1 c2); split; auto; discriminate.
Qed.

Lemma forgetChange_found (cs : list TC) (change : TC) :
  In change cs ->
  exists l1 l2,
    cs = l1 ++ change :: l2 /\ ~ In change l1
    /\ ChangeTracking.forgetChange cs change = (l1 ++ l2, true).
Proof.
  induction cs as [|c cs IH]; intros Hin; [contradiction|]. simpl.
  destruct (TrackedChange.eqb c change) eqn:E.
  - apply eqb_eq in E. subst c. exists [], cs. repeat split. intros [].
  - assert (Hne : c <> change).
    { intros ->. assert (Ht : TrackedChange.eqb change change = true)
        by now apply eqb_eq. congruence. }
    destruct Hin as [->|Hin]; [contradiction|].
    destruct (IH Hin) as (l1 & l2 & E1 & E2 & E3).
    exists (c :: l1), l2. rewrite E3. simpl. repeat split.
    + now f_equal.
    + intros [H|H]; [contradiction | now apply E2].
Qed.

Lemma forgetChange_absent (cs : list TC) (change : TC) :
  ~ In change cs -> ChangeTracking.forgetChange cs change = (cs, false).
Proof.
  induction cs as [|c cs IH]; intros Hnot; [reflexivity|]. simpl.
  destruct (TrackedChange.eqb c change) eqn:E.
  - apply eqb_eq in E. subst c. exfalso. apply Hnot. now left.
  - rewrite IH; [reflexivity|]. intros H. apply Hnot. now right.
Qed.

Lemma StronglySorted_remove (R : TC -> TC -> Prop) (l1 l2 : list TC)
    (x : TC) :
  StronglySorted R (l1 ++ x :: l2) -> StronglySorted R (l1 ++ l2).
Proof.
  intros H. apply StronglySorted_app_inv in H. destruct H as (S1 & S2 & S12).
  apply StronglySorted_inv in S2. destruct S2 as [S2 _].
  apply StronglySorted_app; auto.
  intros a b Ha Hb. apply S12; [assumption | now right].
Qed.

Lemma own_remove_sorted (R : TC -> TC -> Prop) (b : Author)
    (l1 l2 : list TC) (x : TC) :
  StronglySorted R (own b (l1 ++ x :: l2)) ->
  StronglySorted R (own b (l1 ++ l2)).
Proof.
  unfold own. rewrite !filter_app. simpl.
  destruct (by_author b x); [apply StronglySorted_remove | auto].
Qed.

Lemma own_remove_all (P : TC -> Prop) (b : Author) (l1 l2 : list TC)
    (x : TC) :
  Forall P (own b (l1 ++ x :: l2)) -> Forall P (own b (l1 ++ l2)).
Proof.
  unfold own. rewrite !filter_app. simpl. rewrite !Forall_app.
  intros [H1 H2]. split; [assumption|].
  destruct (by_author b x); [now apply Forall_cons_iff in H2 | assumption].
Qed.

Lemma forgetChange_cases (cs : list TC) (change : TC) :
  fst (ChangeTracking.forgetChange cs change) = cs
  \/ exists l1 l2,
       cs = l1 ++ change :: l2
       /\ fst (ChangeTracking.forgetChange cs change) = l1 ++ l2.
Proof.
  destruct (in_dec TrackedChange.eq_dec change cs) as [Hin|Hnot].
  - right. destruct (forgetChange_found cs change Hin)
      as (l1 & l2 & E1 & _ & E3).
    exists l1, l2. rewrite E3. now split.
  - left. now rewrite forgetChange_absent.
Qed.

End Forget.


(** X12. Forgetting a change keeps the order and the separation of the
    changes that stay: for every author, changes that were in the order
    of their ranges are so afterwards, and changes that neither overlapped
    nor touched do not afterwards. *)
Theorem forgetChange_keeps_invariants {DM : DocModel}
    (cs : list TC) (change : TC) (b : Author) :
  (in_order b cs -> in_order b (fst (ChangeTracking.forgetChange cs change)))
  /\ (kept_apart b cs ->
      kept_apart b (fst (ChangeTracking.forgetChange cs change))).
Proof.
  destruct (forgetChange_cases cs change) as [->|(l1 & l2 & -> & ->)];
    [tauto|].
  split.
  - intros (Hwf & Hs & He). repeat split.
    + exact (own_remove_all _ _ _ _ _ Hwf).
    + exact (own_remove_sorted _ _ _ _ _ Hs).
    + exact (own_remove_sorted _ _ _ _ _ He).
  - intros (Hwf & Hs). split.
    + exact (own_remove_all _ _ _ _ _ Hwf).
    + exact (own_remove_sorted _ _ _ _ _ Hs).
Qed.

Lemma forgetChange_keeps_invariants_witness :
  @in_order Flat.model "x" Samples.mixed
  /\ @ChangeTracking.forgetChange Flat.model Samples.mixed
       (Samples.change 4 5 "" "x")
     = ([Samples.change 1 2 "" "y"; Samples.change 2 3 "" "x";
         Samples.change 3 6 "" "y"; Samples.change 7 7 "q" "x"], true)
  /\ @in_order Flat.model "x"
       (fst (@ChangeTracking.forgetChange Flat.model Samples.mixed
               (Samples.change 4 5 "" "x"))).
Proof.
  split; [exact mixed_in_order|]. split; [reflexivity|].
  exact (proj1 (@forgetChange_keeps_invariants Flat.model Samples.mixed
                  (Samples.change 4 5 "" "x") "x") mixed_in_order).
Defined.

(** ** A change with an empty range, and text put in at its place *)



(** ** Reverting the change of one edit, on text *)

Section RevertFresh.








End RevertFresh.

Section RevertFreshMain.


End RevertFreshMain.

Section RevertFreshBack.


End RevertFreshBack.



(** ** No change without content *)

Section Marks.
Context {DM : DocModel}.

Lemma map_marks (c c' : TC) (m : PosMap) (inclusive : bool) :
  TrackedChange.map c m inclusive = Some c' -> marks_something c'.
Proof.
  unfold TrackedChange.map, marks_something.
  destruct (_ >? _) eqn:Egt; simpl; [discriminate|].
  destruct (_ =? _) eqn:Eeq; simpl.
  - destruct (Slice_size (TrackedChange.deleted c) =? 0) eqn:Esz;
      [discriminate|].
    intros H. inversion H; subst; simpl. right. lia.
  - intros H. inversion H; subst; simpl. left. lia.
Qed.

Lemma mapChange_marks (m : PosMap) (author : option Author)
    (updated : option Updated) (docAfter : option Doc) (c c'' : TC) :
  mapChange m author updated docAfter c = Ret (Some c'') ->
  marks_something c''.
Proof.
  unfold mapChange. intros H.
  destruct (TrackedChange.map c m _) as [c'|] eqn:Em; [|discriminate].
  apply map_marks in Em.
  destruct updated as [upd|]; [|inversion H; now subst].
  destruct (updated_side upd c); [|inversion H; now subst].
  destruct docAfter as [d|]; [|discriminate].
  apply minimizeChange_shape in H.
  destruct H as (_ & [->|[(_ & _ & _ & Hlt)|(_ & _ & _ & Hlt)]]);
    [assumption | now left | now left].
Qed.

Lemma mapChanges_marks (m : PosMap) (author : option Author)
    (updated : option Updated) (docAfter : option Doc) (cs cs' : list TC) :
  mapChanges cs m author updated docAfter = Ret cs' ->
  Forall marks_something cs'.
Proof.
  intros H. apply Forall_forall. intros c'' Hin.
  destruct (mapChanges_origin _ _ _ _ _ _ _ H Hin) as (c & _ & Hm).
  exact (mapChange_marks _ _ _ _ _ _ Hm).
Qed.

Lemma record_steps_marks (sts : list (Doc * StepMap.t)) (final : Doc)
    (a : Author) (cs cs' : list TC) :
  Forall marks_something cs ->
  ChangeTracking.record_steps sts final a cs = Ret cs' ->
  Forall marks_something cs'.
Proof.
  revert cs. induction sts as [|[d m] sts IH]; intros cs Hcs H.
  - now inversion H; subst.
  - simpl in H. apply bind_inv in H. destruct H as ([cs1 upd] & _ & H).
    apply bind_inv in H. destruct H as (cs2 & H2 & H).
    apply mapChanges_marks in H2. exact (IH cs2 H2 H).
Qed.

End Marks.

(** X15. No change without content is kept.  Every change [mapChanges]
    returns has a non-empty range or non-empty deleted content, whether it
    was only mapped or minimised as well; so [record], which ends each
    step with [mapChanges], keeps a change set free of empty changes, and
    from the empty set never holds one. *)
Theorem no_empty_change_kept {DM : DocModel} :
  (forall m author updated docAfter cs cs',
      mapChanges cs m author updated docAfter = Ret cs' ->
      Forall marks_something cs')
  /\ (forall cs tr a cs',
        Forall marks_something cs ->
        ChangeTracking.record cs tr a = Ret cs' ->
        Forall marks_something cs').
Proof.
  split.
  - intros m author updated docAfter cs cs' H.
    exact (mapChanges_marks _ _ _ _ _ _ H).
  - intros cs tr a cs' Hcs H.
    exact (record_steps_marks _ _ _ _ _ Hcs H).
Qed.

Lemma no_empty_change_kept_witness :
  @ChangeTracking.record Flat.model [Samples.change 4 6 "" "x"]
    (Samples.edit (Flat.text "<foook>") 1 1 "hi") "x"
  = Ret Samples.add_twice
  /\ Forall (@marks_something Flat.model) Samples.add_twice.
Proof.
  split; [reflexivity|].
  apply (proj2 (@no_empty_change_kept Flat.model)
           [Samples.change 4 6 "" "x"]
           (Samples.edit (Flat.text "<foook>") 1 1 "hi") "x"%string
           Samples.add_twice); [|reflexivity].
  constructor; [|constructor]. left. simpl. lia.
Defined.
